(** * AudioPlayer: the playback session of [main.cpp]

    A shallow embedding of the player core of [main.cpp] (the version built
    around [struct PlayerState]): the directory scanner, the asynchronous
    refresh, the sound life cycle, the play/pause and next handlers, the
    drain of the end-of-track flag and the per-frame UI dispatch.

    Conventions.
    - [int] is a 32-bit two's complement integer held in [Z]; every
      conversion the source performs ([static_cast<int>], the implicit
      [int -> size_t -> int] round trip of [%]) is written out.
    - [float] values are only stored and handed to the engine, never
      computed with; they are held as rationals.
    - miniaudio is the environment.  Whether [ma_sound_init_from_file]
      accepts a file is an oracle [engine : string -> ma_result]; every call
      made on the engine is appended to the field [ma_calls] of the state, so
      that the order of release and acquisition can be stated.
    - the file system is the environment of the scanner: an oracle record
      [filesystem] gives the outcome of each query, including a thrown
      [filesystem_error]. *)

From Stdlib Require Import ZArith List String Ascii Bool Lia QArith.
Import ListNotations.
Local Open Scope string_scope.
Local Open Scope list_scope.
Local Open Scope Z_scope.

(** ** Machine integers *)

Module Int.

Definition INT_MAX : Z := 2147483647.
Definition INT_MIN : Z := -2147483648.

(** Conversion of a mathematical integer to [int] (modular). *)
Definition wrap (z : Z) : Z := (z + 2147483648) mod 4294967296 - 2147483648.

(** Conversion of an [int] to [size_t] (64-bit, modular). *)
Definition to_size_t (z : Z) : Z := z mod 18446744073709551616.

Definition in_range (z : Z) : Prop := INT_MIN <= z <= INT_MAX.

End Int.

(** ** The audio engine seen from the player *)

Inductive ma_result : Type :=
| MA_SUCCESS
| MA_ERROR.

(** [ma_sound]: what the player can observe of the engine's sound object. *)
Record ma_sound : Type := mk_sound {
  snd_file : string;          (* the file it streams *)
  snd_started : bool;         (* [ma_sound_is_playing] *)
  snd_volume : Q;
  snd_end_callback : bool     (* [sound_end_callback] registered *)
}.

Definition empty_sound : ma_sound := mk_sound EmptyString false 1%Q false.

(** Calls made on the engine, in program order. *)
Inductive ma_call : Type :=
| Call_sound_stop
| Call_sound_uninit
| Call_sound_init_from_file (path : string) (r : ma_result)
| Call_sound_set_volume (v : Q)
| Call_sound_set_end_callback
| Call_sound_start.

(** ** [struct PlayerState] *)

Record PlayerState : Type := mkPlayerState {
  sound : ma_sound;
  sound_initialized : bool;
  track_list : list string;
  current_track_index : Z;
  is_playing : bool;
  volume : Q;
  music_load_future : bool;               (* [music_load_future.valid()] *)
  is_loading_music : bool;
  was_playing_before_async_load : bool;
  playing_song_before_async_load : string;
  track_ended_flag : bool;
  show_music_player_window : bool;
  ma_calls : list ma_call
}.

(** The member initialisers of [PlayerState]. *)
Definition initial_PlayerState : PlayerState :=
  {| sound := empty_sound;
     sound_initialized := false;
     track_list := [];
     current_track_index := 0;
     is_playing := false;
     volume := 1%Q;
     music_load_future := false;
     is_loading_music := false;
     was_playing_before_async_load := false;
     playing_song_before_async_load := EmptyString;
     track_ended_flag := false;
     show_music_player_window := true;
     ma_calls := [] |}.

Module Setters.

Definition set_sound (x : ma_sound) (s : PlayerState) : PlayerState :=
  mkPlayerState x (sound_initialized s) (track_list s)
    (current_track_index s) (is_playing s) (volume s) (music_load_future s)
    (is_loading_music s) (was_playing_before_async_load s)
    (playing_song_before_async_load s) (track_ended_flag s)
    (show_music_player_window s) (ma_calls s).

Definition set_sound_initialized (x : bool) (s : PlayerState) : PlayerState :=
  mkPlayerState (sound s) x (track_list s)
    (current_track_index s) (is_playing s) (volume s) (music_load_future s)
    (is_loading_music s) (was_playing_before_async_load s)
    (playing_song_before_async_load s) (track_ended_flag s)
    (show_music_player_window s) (ma_calls s).

Definition set_track_list (x : list string) (s : PlayerState) : PlayerState :=
  mkPlayerState (sound s) (sound_initialized s) x
    (current_track_index s) (is_playing s) (volume s) (music_load_future s)
    (is_loading_music s) (was_playing_before_async_load s)
    (playing_song_before_async_load s) (track_ended_flag s)
    (show_music_player_window s) (ma_calls s).

Definition set_current_track_index (x : Z) (s : PlayerState) : PlayerState :=
  mkPlayerState (sound s) (sound_initialized s) (track_list s)
    x (is_playing s) (volume s) (music_load_future s)
    (is_loading_music s) (was_playing_before_async_load s)
    (playing_song_before_async_load s) (track_ended_flag s)
    (show_music_player_window s) (ma_calls s).

Definition set_is_playing (x : bool) (s : PlayerState) : PlayerState :=
  mkPlayerState (sound s) (sound_initialized s) (track_list s)
    (current_track_index s) x (volume s) (music_load_future s)
    (is_loading_music s) (was_playing_before_async_load s)
    (playing_song_before_async_load s) (track_ended_flag s)
    (show_music_player_window s) (ma_calls s).

Definition set_volume (x : Q) (s : PlayerState) : PlayerState :=
  mkPlayerState (sound s) (sound_initialized s) (track_list s)
    (current_track_index s) (is_playing s) x (music_load_future s)
    (is_loading_music s) (was_playing_before_async_load s)
    (playing_song_before_async_load s) (track_ended_flag s)
    (show_music_player_window s) (ma_calls s).

Definition set_music_load_future (x : bool) (s : PlayerState) : PlayerState :=
  mkPlayerState (sound s) (sound_initialized s) (track_list s)
    (current_track_index s) (is_playing s) (volume s) x
    (is_loading_music s) (was_playing_before_async_load s)
    (playing_song_before_async_load s) (track_ended_flag s)
    (show_music_player_window s) (ma_calls s).

Definition set_is_loading_music (x : bool) (s : PlayerState) : PlayerState :=
  mkPlayerState (sound s) (sound_initialized s) (track_list s)
    (current_track_index s) (is_playing s) (volume s) (music_load_future s)
    x (was_playing_before_async_load s)
    (playing_song_before_async_load s) (track_ended_flag s)
    (show_music_player_window s) (ma_calls s).

Definition set_was_playing_before_async_load (x : bool) (s : PlayerState) : PlayerState :=
  mkPlayerState (sound s) (sound_initialized s) (track_list s)
    (current_track_index s) (is_playing s) (volume s) (music_load_future s)
    (is_loading_music s) x
    (playing_song_before_async_load s) (track_ended_flag s)
    (show_music_player_window s) (ma_calls s).

Definition set_playing_song_before_async_load (x : string) (s : PlayerState) : PlayerState :=
  mkPlayerState (sound s) (sound_initialized s) (track_list s)
    (current_track_index s) (is_playing s) (volume s) (music_load_future s)
    (is_loading_music s) (was_playing_before_async_load s)
    x (track_ended_flag s)
    (show_music_player_window s) (ma_calls s).

Definition set_track_ended_flag (x : bool) (s : PlayerState) : PlayerState :=
  mkPlayerState (sound s) (sound_initialized s) (track_list s)
    (current_track_index s) (is_playing s) (volume s) (music_load_future s)
    (is_loading_music s) (was_playing_before_async_load s)
    (playing_song_before_async_load s) x
    (show_music_player_window s) (ma_calls s).

Definition set_show_music_player_window (x : bool) (s : PlayerState) : PlayerState :=
  mkPlayerState (sound s) (sound_initialized s) (track_list s)
    (current_track_index s) (is_playing s) (volume s) (music_load_future s)
    (is_loading_music s) (was_playing_before_async_load s)
    (playing_song_before_async_load s) (track_ended_flag s)
    x (ma_calls s).

(** Record one call on the engine. *)
Definition call (c : ma_call) (s : PlayerState) : PlayerState :=
  mkPlayerState (sound s) (sound_initialized s) (track_list s)
    (current_track_index s) (is_playing s) (volume s) (music_load_future s)
    (is_loading_music s) (was_playing_before_async_load s)
    (playing_song_before_async_load s) (track_ended_flag s)
    (show_music_player_window s) (ma_calls s ++ [c]).

End Setters.
Export Setters.

(** Sequencing of state updates, written in program order:
    [s |> f |> g] is [g (f s)]. *)
Notation "s |> f" := (f s) (at level 45, left associativity, only parsing).

(** ** Engine calls on [state.sound] *)

Definition ma_sound_stop (s : PlayerState) : PlayerState :=
  let snd := sound s in
  s |> set_sound (mk_sound (snd_file snd) false (snd_volume snd)
                           (snd_end_callback snd))
    |> call Call_sound_stop.

Definition ma_sound_start (s : PlayerState) : PlayerState :=
  let snd := sound s in
  s |> set_sound (mk_sound (snd_file snd) true (snd_volume snd)
                           (snd_end_callback snd))
    |> call Call_sound_start.

Definition ma_sound_set_volume (v : Q) (s : PlayerState) : PlayerState :=
  let snd := sound s in
  s |> set_sound (mk_sound (snd_file snd) (snd_started snd) v
                           (snd_end_callback snd))
    |> call (Call_sound_set_volume v).

Definition ma_sound_set_end_callback (s : PlayerState) : PlayerState :=
  let snd := sound s in
  s |> set_sound (mk_sound (snd_file snd) (snd_started snd) (snd_volume snd)
                           true)
    |> call Call_sound_set_end_callback.

Definition ma_sound_uninit (s : PlayerState) : PlayerState :=
  s |> call Call_sound_uninit.

Definition ma_sound_is_playing (s : PlayerState) : bool :=
  snd_started (sound s).

(** [ma_sound_init_from_file]: the engine decides; on success [state.sound]
    is a fresh sound on that file, not yet started. *)
Definition ma_sound_init_from_file (engine : string -> ma_result)
    (filepath : string) (s : PlayerState) : ma_result * PlayerState :=
  match engine filepath with
  | MA_SUCCESS =>
      (MA_SUCCESS,
       s |> set_sound (mk_sound filepath false 1%Q false)
         |> call (Call_sound_init_from_file filepath MA_SUCCESS))
  | MA_ERROR =>
      (MA_ERROR, s |> call (Call_sound_init_from_file filepath MA_ERROR))
  end.

(** [sound_end_callback], run by the engine's thread with
    [pUserData = &state]. *)
Definition sound_end_callback (s : PlayerState) : PlayerState :=
  s |> set_track_ended_flag true.

(** ** Vector helpers *)

(** [static_cast<int>(state.track_list.size())] *)
Definition size_as_int (l : list string) : Z :=
  Int.wrap (Z.of_nat (List.length l)).

Definition empty (l : list string) : bool :=
  match l with [] => true | _ :: _ => false end.

(** [state.track_list[i]] for an [int] index. *)
Definition at_index (l : list string) (i : Z) : string :=
  nth (Z.to_nat i) l EmptyString.

(** The test written four times in the source:
    [i >= 0 && i < static_cast<int>(track_list.size())]. *)
Definition index_in_bounds (l : list string) (i : Z) : bool :=
  (0 <=? i) && (i <? size_as_int l).

(** [std::find] followed by [std::distance] from [begin()]:
    [None] stands for [end()]. *)
Fixpoint find_index (l : list string) (x : string) : option Z :=
  match l with
  | [] => None
  | y :: l' =>
      if String.eqb y x then Some 0
      else match find_index l' x with
           | Some k => Some (k + 1)
           | None => None
           end
  end.


(** ** The directory scanner *)

(** Outcome of a call that may throw [std::filesystem::filesystem_error]. *)
Inductive fs_result (A : Type) : Type :=
| FsOk (a : A)
| FsThrow.
Arguments FsOk {A} a.
Arguments FsThrow {A}.

(** One [directory_entry] as the scanner looks at it. *)
Record directory_entry : Type := mk_entry {
  entry_path : string;                        (* [entry.path().string()] *)
  entry_extension : string;                   (* [entry.path().extension().string()] *)
  entry_is_regular_file : fs_result bool      (* [entry.is_regular_file()] *)
}.

(** What the file system answers during one run of the scanner.  The
    iterator is the list of its steps: each step yields an entry or throws. *)
Record filesystem : Type := mk_filesystem {
  fs_exists : fs_result bool;                  (* [exists(music_dir_path)] *)
  fs_create_directories : fs_result bool;
  fs_directory_iterator : fs_result (list (fs_result directory_entry))
}.

Module Scan.

(** Computations of the worker: the local [found_tracks] is threaded
    through, and a [filesystem_error] may escape. *)
Definition M (A : Type) : Type := list string -> list string * fs_result A.

Definition ret {A} (a : A) : M A := fun found => (found, FsOk a).

Definition bind {A B} (m : M A) (f : A -> M B) : M B :=
  fun found =>
    match m found with
    | (found', FsOk a) => f a found'
    | (found', FsThrow) => (found', FsThrow)
    end.

Definition lift {A} (r : fs_result A) : M A := fun found => (found, r).

(** [try { body } catch (const filesystem_error&) { handler }]: the handler
    sees [found_tracks] as the body left it. *)
Definition try_catch {A} (body handler : M A) : M A :=
  fun found =>
    match body found with
    | (found', FsThrow) => handler found'
    | r => r
    end.

Definition push_back (x : string) : M unit :=
  fun found => (found ++ [x], FsOk tt).

End Scan.

Notation "x <- m ;; k" := (Scan.bind m (fun x => k))
  (at level 61, m at next level, right associativity).
Notation "m ;;; k" := (Scan.bind m (fun _ => k))
  (at level 61, right associativity).

(** [::tolower] in the "C" locale. *)
Definition tolower (c : ascii) : ascii :=
  let n := nat_of_ascii c in
  if (65 <=? n)%nat && (n <=? 90)%nat then ascii_of_nat (n + 32) else c.

(** [std::transform(ext.begin(), ext.end(), ext.begin(), ::tolower)] *)
Fixpoint transform_tolower (s : string) : string :=
  match s with
  | EmptyString => EmptyString
  | String c s' => String (tolower c) (transform_tolower s')
  end.

Definition playable_extension (extension : string) : bool :=
  let extension := transform_tolower extension in
  String.eqb extension ".mp3" || String.eqb extension ".wav".

(** Body of the range-for of [ScanMusicDirectoryWorker]. *)
Definition visit_entry (entry : directory_entry) : Scan.M unit :=
  regular <- Scan.lift (entry_is_regular_file entry) ;;
  if regular then
    if playable_extension (entry_extension entry)
    then Scan.push_back (entry_path entry)
    else Scan.ret tt
  else Scan.ret tt.

Fixpoint for_each_entry (it : list (fs_result directory_entry)) : Scan.M unit :=
  match it with
  | [] => Scan.ret tt
  | step :: it' =>
      entry <- Scan.lift step ;;
      visit_entry entry ;;;
      for_each_entry it'
  end.

(** The first block: [true] when the worker returns [found_tracks] from the
    handler of the creation failure.  The call of [exists] is outside the
    [try]: what it throws leaves the worker. *)
Definition ensure_directory (fs : filesystem) : Scan.M bool :=
  dir_exists <- Scan.lift (fs_exists fs) ;;
  if negb dir_exists then
    Scan.try_catch
      (_created <- Scan.lift (fs_create_directories fs) ;; Scan.ret false)
      (Scan.ret true)
  else Scan.ret false.

Definition scan_directory (fs : filesystem) : Scan.M unit :=
  Scan.try_catch
    (it <- Scan.lift (fs_directory_iterator fs) ;; for_each_entry it)
    (Scan.ret tt).

(** [ScanMusicDirectoryWorker]: the value returned, or [FsThrow] when a
    [filesystem_error] leaves the function. *)
Definition ScanMusicDirectoryWorker (fs : filesystem) : fs_result (list string) :=
  let body :=
    returned <- ensure_directory fs ;;
    if (returned : bool) then Scan.ret tt else scan_directory fs in
  match body [] with
  | (found_tracks, FsOk _) => FsOk found_tracks
  | (_, FsThrow) => FsThrow
  end.

(** ** Sound life cycle *)

Definition StopCurrentSound (s : PlayerState) : PlayerState :=
  let s := if sound_initialized s then ma_sound_stop s else s in
  s |> set_is_playing false.

Definition UninitializeCurrentSound (s : PlayerState) : PlayerState :=
  if sound_initialized s then
    s |> ma_sound_uninit |> set_sound_initialized false
  else s.

Definition InitializeAndPlaySound (engine : string -> ma_result)
    (track_index_to_play : Z) (start_playing : bool) (s : PlayerState)
  : bool * PlayerState :=
  let s := UninitializeCurrentSound s in
  if empty (track_list s) || (track_index_to_play <? 0)
     || (track_index_to_play >=? size_as_int (track_list s))
  then (false, s |> set_is_playing false)
  else
    let filepath := at_index (track_list s) track_index_to_play in
    match ma_sound_init_from_file engine filepath s with
    | (MA_ERROR, s) =>
        (false, s |> set_sound_initialized false |> set_is_playing false)
    | (MA_SUCCESS, s) =>
        let s := s |> set_sound_initialized true
                   |> set_current_track_index track_index_to_play in
        let s := s |> ma_sound_set_volume (volume s)
                   |> ma_sound_set_end_callback in
        if start_playing
        then (true, s |> ma_sound_start |> set_is_playing true)
        else (true, s |> set_is_playing false)
    end.

(** ** Asynchronous refresh *)

(** [TriggerLoadMusicFilesAsync]; the last statement launches the worker and
    makes the future valid. *)
Definition TriggerLoadMusicFilesAsync (is_initial_load : bool)
    (s : PlayerState) : PlayerState :=
  if is_loading_music s then s
  else
    let s := s |> set_is_loading_music true in
    let s :=
      if negb is_initial_load then
        let s := s |> set_was_playing_before_async_load (is_playing s) in
        let s :=
          if negb (empty (track_list s))
             && index_in_bounds (track_list s) (current_track_index s)
          then s |> set_playing_song_before_async_load
                      (at_index (track_list s) (current_track_index s))
          else s |> set_playing_song_before_async_load EmptyString in
        let s :=
          if sound_initialized s
          then s |> ma_sound_stop |> ma_sound_uninit
                 |> set_sound_initialized false
          else s in
        s |> set_is_playing false
      else s in
    s |> set_music_load_future true.

(** What [wait_for(0s)] and [get()] give in one tick. *)
Inductive future_poll : Type :=
| NotReady
| Ready (result : fs_result (list string)).

Definition ProcessAsyncMusicLoadCompletion (engine : string -> ma_result)
    (poll : future_poll) (s : PlayerState) : PlayerState :=
  if is_loading_music s && music_load_future s then
    match poll with
    | NotReady => s
    | Ready result =>
        let s := s |> set_music_load_future false in
        let s :=
          match result with
          | FsOk tracks => s |> set_track_list tracks
          | FsThrow => s |> set_track_list []
          end in
        let s := s |> set_current_track_index 0 |> set_is_playing false in
        let s :=
          if was_playing_before_async_load s
             && negb (String.eqb (playing_song_before_async_load s) EmptyString)
          then
            match find_index (track_list s) (playing_song_before_async_load s) with
            | Some it =>
                let new_index := Int.wrap it in
                snd (InitializeAndPlaySound engine new_index true s)
            | None => s
            end
          else s in
        s |> set_was_playing_before_async_load false
          |> set_playing_song_before_async_load EmptyString
          |> set_is_loading_music false
    end
  else s.

(** ** Commands *)

Definition HandlePlayPause (engine : string -> ma_result) (s : PlayerState)
  : PlayerState :=
  if empty (track_list s) then s
  else if (current_track_index s <? 0)
          || (current_track_index s >=? size_as_int (track_list s)) then s
  else if is_playing s then
    let s := if sound_initialized s then ma_sound_stop s else s in
    s |> set_is_playing false
  else if sound_initialized s && negb (ma_sound_is_playing s) then
    s |> ma_sound_start |> set_is_playing true
  else
    snd (InitializeAndPlaySound engine (current_track_index s) true s).

(** The index computed by [HandleNextTrack]:
    [(state.current_track_index + 1) % state.track_list.size()], an [int]
    sum (two's complement on overflow) converted to [size_t], reduced, and
    stored in an [int].  Called on a non-empty list only. *)
Definition next_track_index (s : PlayerState) : Z :=
  Int.wrap
    (Int.to_size_t (Int.wrap (current_track_index s + 1))
     mod Z.of_nat (List.length (track_list s))).

Definition HandleNextTrack (engine : string -> ma_result) (s : PlayerState)
  : PlayerState :=
  if empty (track_list s) then s
  else
    let was_playing := is_playing s in
    snd (InitializeAndPlaySound engine (next_track_index s) was_playing s).

Definition HandleVolumeChange (new_volume : Q) (s : PlayerState) : PlayerState :=
  let s := s |> set_volume new_volume in
  if sound_initialized s then ma_sound_set_volume (volume s) s else s.

(** ** The control loop *)

Definition ProcessAudioEvents (engine : string -> ma_result) (s : PlayerState)
  : PlayerState :=
  (* [track_ended_flag.exchange(false)] *)
  let was_set := track_ended_flag s in
  let s := s |> set_track_ended_flag false in
  if was_set then
    if is_playing s then HandleNextTrack engine s else s
  else s.

(** What ImGui reports to [RenderUI] in one frame. *)
Record ui_input : Type := mk_ui {
  ui_close : bool;            (* the window's close box: clears [*p_open] *)
  ui_begin : bool;            (* value of [ImGui::Begin] *)
  ui_refresh : bool;          (* "Refresh Music List" pressed *)
  ui_play_pause : bool;       (* "Play" / "Pause" pressed *)
  ui_next : bool;             (* "Next" pressed *)
  ui_volume : option Q        (* the slider moved, and its new value *)
}.

Definition RenderUI (engine : string -> ma_result) (ui : ui_input)
    (s : PlayerState) : PlayerState :=
  if negb (show_music_player_window s) then s
  else
    let s := if ui_close ui then s |> set_show_music_player_window false else s in
    if ui_begin ui then
      (* the button is disabled between BeginDisabled and EndDisabled *)
      let s := if ui_refresh ui && negb (is_loading_music s)
               then TriggerLoadMusicFilesAsync false s else s in
      if negb (empty (track_list s)) then
        let s :=
          if (current_track_index s <? 0)
             || (current_track_index s >=? size_as_int (track_list s))
          then
            let s := s |> set_current_track_index 0 in
            let s := if is_playing s then StopCurrentSound s else s in
            UninitializeCurrentSound s
          else s in
        if index_in_bounds (track_list s) (current_track_index s) then
          let s := if ui_play_pause ui then HandlePlayPause engine s else s in
          let s := if ui_next ui then HandleNextTrack engine s else s in
          match ui_volume ui with
          | Some current_volume => HandleVolumeChange current_volume s
          | None => s
          end
        else s
      else s
    else s.

(** One iteration of the [while] loop of [main] that is not skipped by the
    frame limiter. *)
Definition main_loop_iteration (engine : string -> ma_result)
    (poll : future_poll) (ui : ui_input) (s : PlayerState) : PlayerState :=
  s |> ProcessAsyncMusicLoadCompletion engine poll
    |> ProcessAudioEvents engine
    |> RenderUI engine ui.

(** [main] up to the loop, once the four initialisations have succeeded. *)
Definition main_startup : PlayerState :=
  initial_PlayerState
    |> set_sound_initialized false          (* [InitializeMiniaudio] *)
    |> TriggerLoadMusicFilesAsync true.


(** ** Observable status and traces of operations *)

Inductive PlaybackStatus : Type :=
| Stopped
| Playing
| Paused.

(** The status shown by the player: the button reads "Pause" exactly when
    [is_playing]; a session that is not playing is paused when it holds a
    sound and stopped when it holds none. *)
Definition status (s : PlayerState) : PlaybackStatus :=
  if is_playing s then Playing
  else if sound_initialized s then Paused
  else Stopped.

(** An ActiveSound is bound. *)
Definition bound (s : PlayerState) : Prop := sound_initialized s = true.

(** The end of the sound, on the engine's thread: the engine stops the node
    and runs the registered callback. *)
Definition engine_sound_at_end (s : PlayerState) : PlayerState :=
  let snd := sound s in
  s |> set_sound (mk_sound (snd_file snd) false (snd_volume snd)
                           (snd_end_callback snd))
    |> sound_end_callback.

(** Everything that can happen to a session once [main] has entered its
    loop.  The three calls of one loop iteration are separate events, so a
    frame is the sequence [PollCompletion; DrainAudioEvents; Frame]; the
    commands are also events of their own. *)
Inductive event : Type :=
| TogglePlayPause (engine : string -> ma_result)
| Next (engine : string -> ma_result)
| VolumeChange (new_volume : Q)
| RequestRefresh
| PollCompletion (engine : string -> ma_result) (poll : future_poll)
| DrainAudioEvents (engine : string -> ma_result)
| Frame (engine : string -> ma_result) (ui : ui_input)
| TrackEnd.

Definition apply_event (e : event) (s : PlayerState) : PlayerState :=
  match e with
  | TogglePlayPause engine => HandlePlayPause engine s
  | Next engine => HandleNextTrack engine s
  | VolumeChange v => HandleVolumeChange v s
  | RequestRefresh => TriggerLoadMusicFilesAsync false s
  | PollCompletion engine poll => ProcessAsyncMusicLoadCompletion engine poll s
  | DrainAudioEvents engine => ProcessAudioEvents engine s
  | Frame engine ui => RenderUI engine ui s
  | TrackEnd => engine_sound_at_end s
  end.

Fixpoint run (es : list event) (s : PlayerState) : PlayerState :=
  match es with
  | [] => s
  | e :: es' => run es' (apply_event e s)
  end.

(** An engine that accepts every file, and one that rejects every file. *)
Definition accept_all : string -> ma_result := fun _ => MA_SUCCESS.
Definition reject_all : string -> ma_result := fun _ => MA_ERROR.

(** ** Notions used to state the properties *)

(** The playing flag is only ever set while a sound is held. *)
Definition playing_has_sound (s : PlayerState) : Prop :=
  is_playing s = true -> sound_initialized s = true.

(** The calls that release the sound held on entry. *)
Definition release_calls (s : PlayerState) : list ma_call :=
  if sound_initialized s then [Call_sound_uninit] else [].

(** Example sessions, built by running the program from [main_startup]. *)
Definition two_tracks : list string := ["./music/a.mp3"; "./music/b.wav"].
Definition three_tracks : list string :=
  ["./music/x.mp3"; "./music/y.mp3"; "./music/z.mp3"].

(** The first scan has delivered two tracks; nothing was played yet. *)
Definition stopped_on_two : PlayerState :=
  run [PollCompletion accept_all (Ready (FsOk two_tracks))] main_startup.

(** The first scan has delivered three tracks and the user has stepped to
    the second and pressed Play. *)
Definition playing_y : PlayerState :=
  run [PollCompletion accept_all (Ready (FsOk three_tracks));
       Next accept_all; TogglePlayPause accept_all] main_startup.

(** The same, then Pause. *)
Definition paused_on_y : PlayerState :=
  run [TogglePlayPause accept_all] playing_y.

(** From [playing_y]: a refresh is requested, Play is pressed while the
    scan runs (the old catalog is still displayed), and the scan delivers an
    empty catalog. *)
Definition emptied_while_bound : PlayerState :=
  run [RequestRefresh; TogglePlayPause accept_all;
       PollCompletion accept_all (Ready (FsOk []))] playing_y.

(** The session as [ProcessAsyncMusicLoadCompletion] has it just before
    it looks for the song that was playing. *)
Definition catalog_replaced (s : PlayerState) (tracks : list string)
  : PlayerState :=
  s |> set_music_load_future false |> set_track_list tracks
    |> set_current_track_index 0 |> set_is_playing false.

(** What remains to do once playback has or has not been resumed. *)
Definition forget_capture (t : PlayerState) : PlayerState :=
  t |> set_was_playing_before_async_load false
    |> set_playing_song_before_async_load EmptyString
    |> set_is_loading_music false.

(** The refresh requested on [paused_on_y], and its completion with the
    catalog unchanged on disk. *)
Definition refresh_requested_while_paused : PlayerState :=
  TriggerLoadMusicFilesAsync false paused_on_y.

Definition refreshed_after_pause : PlayerState :=
  ProcessAsyncMusicLoadCompletion accept_all (Ready (FsOk three_tracks))
    refresh_requested_while_paused.

(** Two characters that are the same, or the upper-case and lower-case
    forms of one letter: in ASCII the upper-case letters are the codes 65 to
    90 and each lower-case form is 32 above. *)
Definition same_letter (c d : ascii) : Prop :=
  let n := nat_of_ascii c in
  let m := nat_of_ascii d in
  n = m
  \/ ((65 <= n <= 90)%nat /\ m = (n + 32)%nat)
  \/ ((65 <= m <= 90)%nat /\ n = (m + 32)%nat).

(** Equality of two strings up to the case of their letters. *)
Fixpoint eq_ignore_case (a b : string) : Prop :=
  match a, b with
  | EmptyString, EmptyString => True
  | String c a', String d b' => same_letter c d /\ eq_ignore_case a' b'
  | _, _ => False
  end.

(** No character of the string is an upper-case letter. *)
Fixpoint no_upper_case (a : string) : Prop :=
  match a with
  | EmptyString => True
  | String c a' =>
      ~ (65 <= nat_of_ascii c <= 90)%nat /\ no_upper_case a'
  end.

(** An entry the scanner keeps: a regular file with a playable extension. *)
Definition entry_selected (e : directory_entry) : bool :=
  match entry_is_regular_file e with
  | FsOk true => playable_extension (entry_extension e)
  | _ => false
  end.

(** The entries seen before the first [filesystem_error], thrown by the
    iterator or by [is_regular_file]. *)
Fixpoint before_first_error (it : list (fs_result directory_entry))
  : list directory_entry :=
  match it with
  | [] => []
  | FsThrow :: _ => []
  | FsOk e :: it' =>
      match entry_is_regular_file e with
      | FsThrow => []
      | FsOk _ => e :: before_first_error it'
      end
  end.

Fixpoint enumeration_throws (it : list (fs_result directory_entry)) : bool :=
  match it with
  | [] => false
  | FsThrow :: _ => true
  | FsOk e :: it' =>
      match entry_is_regular_file e with
      | FsThrow => true
      | FsOk _ => enumeration_throws it'
      end
  end.

(** The directory is reported missing and its creation throws. *)
Definition creation_throws (fs : filesystem) : bool :=
  match fs_exists fs, fs_create_directories fs with
  | FsOk false, FsThrow => true
  | _, _ => false
  end.

(** The existence test itself throws. *)
Definition exists_throws (fs : filesystem) : bool :=
  match fs_exists fs with FsThrow => true | FsOk _ => false end.

(** The session while the scan launched by [main] is in flight. *)
Definition first_scan_running (s : PlayerState) : Prop :=
  is_loading_music s = true
  /\ music_load_future s = true
  /\ track_list s = []
  /\ sound_initialized s = false
  /\ is_playing s = false
  /\ was_playing_before_async_load s = false
  /\ playing_song_before_async_load s = EmptyString.

(** Events other than the delivery of the scan result. *)
Definition scan_pending (e : event) : bool :=
  match e with
  | PollCompletion _ (Ready _) => false
  | _ => true
  end.

(** ** Further code and notions *)

(** [Cleanup], as far as the session goes: the sound is released; the calls
    that follow shut down the engine, ImGui and GLFW and read no field of
    the session. *)
Definition Cleanup (s : PlayerState) : PlayerState :=
  UninitializeCurrentSound s.

(** The discipline miniaudio asks of its client, checked on a trace of
    calls.  [alive] tells whether [state.sound] holds an initialised sound
    before the calls; the result is [None] when a call breaks the
    discipline (use or release of a sound that is not initialised,
    initialisation over a live sound), and otherwise tells whether a sound
    is live after the calls. *)
Fixpoint engine_protocol (alive : bool) (calls : list ma_call) : option bool :=
  match calls with
  | [] => Some alive
  | Call_sound_init_from_file _ r :: rest =>
      if alive then None
      else engine_protocol (match r with MA_SUCCESS => true | MA_ERROR => false end)
                           rest
  | Call_sound_uninit :: rest =>
      if alive then engine_protocol false rest else None
  | (Call_sound_stop | Call_sound_start | Call_sound_set_volume _
     | Call_sound_set_end_callback) :: rest =>
      if alive then engine_protocol true rest else None
  end.

(** The trace of the session is well formed and agrees with
    [sound_initialized]. *)
Definition protocol_respected (s : PlayerState) : Prop :=
  engine_protocol false (ma_calls s) = Some (sound_initialized s).

(** A frame in which ImGui reports no interaction. *)
Definition no_interaction (ui : ui_input) : Prop :=
  ui_close ui = false /\ ui_refresh ui = false /\ ui_play_pause ui = false
  /\ ui_next ui = false /\ ui_volume ui = None.

(** The current index designates a track of the catalog; with an empty
    catalog it is 0 and nothing plays. *)
Definition index_designates_track (s : PlayerState) : Prop :=
  match track_list s with
  | [] => current_track_index s = 0 /\ is_playing s = false
  | _ :: _ => index_in_bounds (track_list s) (current_track_index s) = true
  end.

(** The scan results delivered by an event have a length that is an [int]
    value. *)
Definition delivers_int_length (e : event) : bool :=
  match e with
  | PollCompletion _ (Ready (FsOk tracks)) =>
      Z.of_nat (List.length tracks) <=? Int.INT_MAX
  | _ => true
  end.

(** ** The first [main], in one piece

    [main.cpp] also holds the player as it was first written: one [main]
    whose locals are the session.  The locals [track_list], [is_playing],
    [volume], [sound] and [sound_initialized] are held in the fields of the
    same names of [PlayerState], [track_index] in [current_track_index];
    the other fields are not touched. *)

(** The scan before the loop.  The existence test and the creation of the
    missing directory are outside any [try]; the extension is compared as
    it is, and the kind of the entry is not looked at. *)
Definition monolith_visit_entry (entry : directory_entry) : Scan.M unit :=
  if String.eqb (entry_extension entry) ".mp3"
     || String.eqb (entry_extension entry) ".wav"
  then Scan.push_back (entry_path entry)
  else Scan.ret tt.

Fixpoint monolith_for_each_entry (it : list (fs_result directory_entry))
  : Scan.M unit :=
  match it with
  | [] => Scan.ret tt
  | step :: it' =>
      entry <- Scan.lift step ;;
      monolith_visit_entry entry ;;;
      monolith_for_each_entry it'
  end.

Definition monolith_scan (fs : filesystem) : fs_result (list string) :=
  let body :=
    (dir_exists <- Scan.lift (fs_exists fs) ;;
     if negb dir_exists
     then _created <- Scan.lift (fs_create_directories fs) ;; Scan.ret tt
     else Scan.ret tt) ;;;
    Scan.try_catch
      (it <- Scan.lift (fs_directory_iterator fs) ;; monolith_for_each_entry it)
      (Scan.ret tt) in
  match body [] with
  | (track_list, FsOk _) => FsOk track_list
  | (_, FsThrow) => FsThrow
  end.

(** [track_index = (track_index + 1) % track_list.size()] followed by
    [ma_sound_init_from_file] on the track at the new index. *)
Definition monolith_advance_and_init (engine : string -> ma_result)
    (s : PlayerState) : ma_result * PlayerState :=
  let s := s |> set_current_track_index (next_track_index s) in
  ma_sound_init_from_file engine
    (at_index (track_list s) (current_track_index s)) s.

(** The body of [if (ImGui::Button(is_playing ? "Pause" : "Play"))]. *)
Definition monolith_play_pause (engine : string -> ma_result)
    (s : PlayerState) : PlayerState :=
  if is_playing s then
    let s := if sound_initialized s then ma_sound_stop s else s in
    s |> set_is_playing false
  else
    let s :=
      if sound_initialized s && negb (ma_sound_is_playing s)
      then ma_sound_start s
      else
        let s := if sound_initialized s then ma_sound_uninit s else s in
        match ma_sound_init_from_file engine
                (at_index (track_list s) (current_track_index s)) s with
        | (MA_ERROR, s) => s |> set_sound_initialized false
        | (MA_SUCCESS, s) =>
            let s := s |> set_sound_initialized true |> set_is_playing false in
            s |> ma_sound_set_volume (volume s) |> ma_sound_start
        end in
    if sound_initialized s then s |> set_is_playing true else s.

(** The body of [if (ImGui::Button("Next"))]. *)
Definition monolith_next (engine : string -> ma_result) (s : PlayerState)
  : PlayerState :=
  let s := if sound_initialized s
           then s |> ma_sound_uninit |> set_sound_initialized false
           else s in
  match monolith_advance_and_init engine s with
  | (MA_SUCCESS, s) =>
      let s := s |> set_sound_initialized true in
      s |> ma_sound_set_volume (volume s) |> ma_sound_start
        |> set_is_playing true
  | (MA_ERROR, s) => s |> set_sound_initialized false |> set_is_playing false
  end.

(** The slider writes [volume] itself. *)
Definition monolith_volume (new_volume : Q) (s : PlayerState) : PlayerState :=
  let s := s |> set_volume new_volume in
  if sound_initialized s then ma_sound_set_volume (volume s) s else s.

(** The test after the rendering; [at_end] is the answer of
    [ma_sound_at_end]. *)
Definition monolith_auto_next (engine : string -> ma_result) (at_end : bool)
    (s : PlayerState) : PlayerState :=
  if sound_initialized s && is_playing s && negb (empty (track_list s)) then
    if at_end then
      let s := s |> ma_sound_uninit |> set_sound_initialized false in
      match monolith_advance_and_init engine s with
      | (MA_SUCCESS, s) =>
          let s := s |> set_sound_initialized true in
          s |> ma_sound_set_volume (volume s) |> ma_sound_start
            |> set_is_playing true
      | (MA_ERROR, s) => s |> set_is_playing false
      end
    else s
  else s.

(** One iteration of the loop of the first [main]. *)
Definition monolith_frame (engine : string -> ma_result) (ui : ui_input)
    (at_end : bool) (s : PlayerState) : PlayerState :=
  let s :=
    if negb (empty (track_list s)) then
      let s :=
        if (current_track_index s <? 0)
           || (current_track_index s >=? size_as_int (track_list s))
        then s |> set_current_track_index 0 else s in
      let s := if ui_play_pause ui then monolith_play_pause engine s else s in
      let s := if ui_next ui then monolith_next engine s else s in
      match ui_volume ui with
      | Some v => monolith_volume v s
      | None => s
      end
    else s in
  monolith_auto_next engine at_end s.

(** The session as the first [main] enters its loop, on what the scan
    returned. *)
Definition monolith_startup (tracks : list string) : PlayerState :=
  initial_PlayerState |> set_track_list tracks.

Fixpoint monolith_run (frames : list ((string -> ma_result) * ui_input * bool))
    (s : PlayerState) : PlayerState :=
  match frames with
  | [] => s
  | (engine, ui, at_end) :: frames' =>
      monolith_run frames' (monolith_frame engine ui at_end s)
  end.

(** What the first scan keeps: an entry whose extension is exactly [.mp3]
    or [.wav]. *)
Definition monolith_selected (e : directory_entry) : bool :=
  String.eqb (entry_extension e) ".mp3" || String.eqb (entry_extension e) ".wav".

(** The entries met before the iterator throws. *)
Fixpoint before_iterator_error (it : list (fs_result directory_entry))
  : list directory_entry :=
  match it with
  | FsOk e :: it' => e :: before_iterator_error it'
  | _ => []
  end.

(** A bound sound carries the session volume and the end callback. *)
Definition sound_follows_session (s : PlayerState) : Prop :=
  sound_initialized s = true ->
  snd_volume (sound s) = volume s /\ snd_end_callback (sound s) = true.

(** A step of the first [main] keeps the catalog, and keeps the index or
    moves it to the next one. *)
Definition monolith_moves (s s' : PlayerState) : Prop :=
  track_list s' = track_list s
  /\ (current_track_index s' = current_track_index s
      \/ current_track_index s' = next_track_index s).

(** ** Sessions in which a refresh completes over a sound bound meanwhile *)

Definition idle_ui : ui_input := mk_ui false true false false false None.
Definition press_play : ui_input := mk_ui false true false true false None.
Definition press_refresh : ui_input := mk_ui false true true false false None.

(** Loop iterations from the start of [main]: the first scan delivers three
    tracks; Play; Refresh; Play again while the scan runs; the scan
    delivers an empty catalog. *)
Definition stale_sound_on_empty_catalog : PlayerState :=
  main_startup
    |> main_loop_iteration accept_all (Ready (FsOk three_tracks)) idle_ui
    |> main_loop_iteration accept_all NotReady press_play
    |> main_loop_iteration accept_all NotReady press_refresh
    |> main_loop_iteration accept_all NotReady press_play
    |> main_loop_iteration accept_all (Ready (FsOk [])) idle_ui.

(** The same with a pause before the refresh, and a scan that delivers the
    three tracks again. *)
Definition stale_sound_after_pause : PlayerState :=
  main_startup
    |> main_loop_iteration accept_all (Ready (FsOk three_tracks)) idle_ui
    |> main_loop_iteration accept_all NotReady press_play
    |> main_loop_iteration accept_all NotReady press_play
    |> main_loop_iteration accept_all NotReady press_refresh
    |> main_loop_iteration accept_all NotReady press_play
    |> main_loop_iteration accept_all (Ready (FsOk three_tracks)) idle_ui.

(** An engine that rejects one file. *)
Definition rejects_z : string -> ma_result :=
  fun path => if String.eqb path "./music/z.mp3" then MA_ERROR else MA_SUCCESS.

(** * Properties *)

(** ** Shared facts *)

Module IntFacts.

Import Int.

Lemma wrap_small z : in_range z -> wrap z = z.
Proof.
  unfold in_range, wrap, INT_MIN, INT_MAX. intros H.
  rewrite Z.mod_small by lia. lia.
Qed.

Lemma wrap_in_range z : in_range (wrap z).
Proof.
  unfold in_range, wrap, INT_MIN, INT_MAX.
  pose proof (Z.mod_pos_bound (z + 2147483648) 4294967296 ltac:(lia)). lia.
Qed.

Lemma to_size_t_small z : 0 <= z <= INT_MAX -> to_size_t z = z.
Proof.
  unfold to_size_t, INT_MAX. intros H. apply Z.mod_small. lia.
Qed.

End IntFacts.

Lemma run_app es1 es2 s : run (es1 ++ es2) s = run es2 (run es1 s).
Proof.
  revert s. induction es1 as [|e es1 IH]; intros s; simpl; auto.
Qed.

Lemma main_loop_iteration_run engine poll ui s :
  main_loop_iteration engine poll ui s
  = run [PollCompletion engine poll; DrainAudioEvents engine; Frame engine ui] s.
Proof. reflexivity. Qed.

(** Unfold one handler and split on every test it makes. *)
Ltac split_tests :=
  repeat match goal with
         | |- context [if ?b then _ else _] => destruct b eqn:?; simpl in *
         | |- context [match ?x with MA_SUCCESS => _ | MA_ERROR => _ end] =>
             destruct x eqn:?; simpl in *
         end.

Lemma InitializeAndPlaySound_playing_has_sound engine i start s :
  playing_has_sound (snd (InitializeAndPlaySound engine i start s)).
Proof.
  unfold playing_has_sound, InitializeAndPlaySound, UninitializeCurrentSound,
    ma_sound_init_from_file.
  destruct s; simpl. split_tests; auto; discriminate.
Qed.

Lemma HandlePlayPause_playing_has_sound engine s :
  playing_has_sound s -> playing_has_sound (HandlePlayPause engine s).
Proof.
  intros H. unfold HandlePlayPause.
  destruct (empty (track_list s)); auto.
  destruct (_ || _); auto.
  destruct (is_playing s) eqn:Hp.
  - unfold playing_has_sound. destruct (sound_initialized s); simpl; discriminate.
  - destruct (sound_initialized s && negb (ma_sound_is_playing s)) eqn:Hb.
    + apply andb_true_iff in Hb as [Hi _].
      unfold playing_has_sound; simpl; auto.
    + apply InitializeAndPlaySound_playing_has_sound.
Qed.

Lemma HandleNextTrack_playing_has_sound engine s :
  playing_has_sound s -> playing_has_sound (HandleNextTrack engine s).
Proof.
  intros H. unfold HandleNextTrack.
  destruct (empty (track_list s)); auto.
  apply InitializeAndPlaySound_playing_has_sound.
Qed.

Lemma HandleVolumeChange_playing_has_sound v s :
  playing_has_sound s -> playing_has_sound (HandleVolumeChange v s).
Proof.
  unfold playing_has_sound, HandleVolumeChange.
  destruct s as [snd [|]]; simpl; auto.
Qed.

Lemma TriggerLoadMusicFilesAsync_playing_has_sound initial s :
  playing_has_sound s -> playing_has_sound (TriggerLoadMusicFilesAsync initial s).
Proof.
  unfold playing_has_sound, TriggerLoadMusicFilesAsync.
  destruct s, initial; simpl; split_tests; auto; discriminate.
Qed.

Lemma ProcessAsyncMusicLoadCompletion_playing_has_sound engine poll s :
  playing_has_sound s ->
  playing_has_sound (ProcessAsyncMusicLoadCompletion engine poll s).
Proof.
  intros H. unfold ProcessAsyncMusicLoadCompletion.
  destruct (is_loading_music s && music_load_future s); auto.
  destruct poll as [|result]; auto.
  match goal with
  | |- playing_has_sound (set_is_loading_music _ (set_playing_song_before_async_load _
         (set_was_playing_before_async_load _ ?x))) =>
      assert (Hx : playing_has_sound x); [| exact Hx]
  end.
  match goal with
  | |- playing_has_sound (if ?b then _ else _) => destruct b
  end.
  - match goal with
    | |- playing_has_sound (match ?o with Some _ => _ | None => _ end) => destruct o
    end.
    + apply InitializeAndPlaySound_playing_has_sound.
    + unfold playing_has_sound; simpl; discriminate.
  - unfold playing_has_sound; simpl; discriminate.
Qed.

Lemma ProcessAudioEvents_playing_has_sound engine s :
  playing_has_sound s -> playing_has_sound (ProcessAudioEvents engine s).
Proof.
  intros H. unfold ProcessAudioEvents.
  destruct (track_ended_flag s); auto.
  simpl. destruct (is_playing s) eqn:Hp.
  - apply HandleNextTrack_playing_has_sound. exact H.
  - unfold playing_has_sound; simpl. rewrite Hp. discriminate.
Qed.

Lemma StopCurrentSound_not_playing s : is_playing (StopCurrentSound s) = false.
Proof. reflexivity. Qed.

Lemma UninitializeCurrentSound_is_playing s :
  is_playing (UninitializeCurrentSound s) = is_playing s.
Proof.
  unfold UninitializeCurrentSound. destruct (sound_initialized s); reflexivity.
Qed.

Lemma UninitializeCurrentSound_unbound s :
  sound_initialized (UninitializeCurrentSound s) = false.
Proof.
  unfold UninitializeCurrentSound.
  destruct (sound_initialized s) eqn:E; simpl; auto.
Qed.

Lemma RenderUI_playing_has_sound engine ui s :
  playing_has_sound s -> playing_has_sound (RenderUI engine ui s).
Proof.
  intros H. unfold RenderUI.
  destruct (negb (show_music_player_window s)); auto.
  set (s1 := if ui_close ui then _ else s).
  assert (H1 : playing_has_sound s1) by (subst s1; destruct (ui_close ui); auto).
  clearbody s1. destruct (ui_begin ui); auto.
  set (s2 := if ui_refresh ui && _ then _ else s1).
  assert (H2 : playing_has_sound s2).
  { subst s2. destruct (_ && _); auto.
    now apply TriggerLoadMusicFilesAsync_playing_has_sound. }
  clearbody s2. destruct (negb (empty (track_list s2))); auto.
  set (s3 := if _ || _ then _ else s2).
  assert (H3 : playing_has_sound s3).
  { subst s3. destruct (_ || _); auto.
    unfold playing_has_sound. rewrite UninitializeCurrentSound_is_playing.
    destruct s2 as [? ? ? ? [|]]; simpl; discriminate. }
  clearbody s3. destruct (index_in_bounds _ _); auto.
  set (s4 := if ui_play_pause ui then _ else s3).
  assert (H4 : playing_has_sound s4).
  { subst s4. destruct (ui_play_pause ui); auto.
    now apply HandlePlayPause_playing_has_sound. }
  clearbody s4.
  set (s5 := if ui_next ui then _ else s4).
  assert (H5 : playing_has_sound s5).
  { subst s5. destruct (ui_next ui); auto.
    now apply HandleNextTrack_playing_has_sound. }
  clearbody s5. destruct (ui_volume ui); auto.
  now apply HandleVolumeChange_playing_has_sound.
Qed.

Lemma apply_event_playing_has_sound e s :
  playing_has_sound s -> playing_has_sound (apply_event e s).
Proof.
  destruct e; simpl.
  - apply HandlePlayPause_playing_has_sound.
  - apply HandleNextTrack_playing_has_sound.
  - apply HandleVolumeChange_playing_has_sound.
  - apply TriggerLoadMusicFilesAsync_playing_has_sound.
  - apply ProcessAsyncMusicLoadCompletion_playing_has_sound.
  - apply ProcessAudioEvents_playing_has_sound.
  - apply RenderUI_playing_has_sound.
  - unfold playing_has_sound; simpl; auto.
Qed.

Lemma run_playing_has_sound es s :
  playing_has_sound s -> playing_has_sound (run es s).
Proof.
  revert s. induction es as [|e es IH]; intros s H; simpl; auto.
  apply IH, apply_event_playing_has_sound, H.
Qed.

Lemma main_startup_playing_has_sound : playing_has_sound main_startup.
Proof. unfold playing_has_sound. simpl. discriminate. Qed.

(** ** Outcomes of [InitializeAndPlaySound] *)

Arguments size_as_int : simpl never.
Arguments at_index : simpl never.
Arguments Int.wrap : simpl never.
Arguments Int.to_size_t : simpl never.

(** Expose the record behind a chain of updates.  The updates are reduced
    innermost first, so that each projection meets a constructor. *)
Ltac unfold_updates :=
  cbv beta iota zeta delta
    [ma_sound_stop ma_sound_start ma_sound_set_volume
     ma_sound_set_end_callback ma_sound_uninit sound_end_callback
     set_sound set_sound_initialized set_track_list
     set_current_track_index set_is_playing set_volume
     set_music_load_future set_is_loading_music
     set_was_playing_before_async_load set_playing_song_before_async_load
     set_track_ended_flag set_show_music_player_window call
     sound sound_initialized track_list current_track_index is_playing
     volume music_load_future is_loading_music
     was_playing_before_async_load playing_song_before_async_load
     track_ended_flag show_music_player_window ma_calls
     snd_file snd_started snd_volume snd_end_callback fst snd] in *.

(** The guard of [InitializeAndPlaySound] lets a valid index through. *)
Lemma valid_index_passes l i :
  empty l = false -> 0 <= i < size_as_int l ->
  empty l || (i <? 0) || (i >=? size_as_int l) = false.
Proof.
  intros He [H0 H1]. rewrite He. simpl.
  rewrite Z.geb_leb. apply orb_false_iff.
  split; [apply Z.ltb_ge | apply Z.leb_gt]; lia.
Qed.

Lemma size_as_int_fits l :
  Z.of_nat (List.length l) <= Int.INT_MAX ->
  size_as_int l = Z.of_nat (List.length l).
Proof.
  intros H. unfold size_as_int. apply IntFacts.wrap_small.
  unfold Int.in_range, Int.INT_MIN. lia.
Qed.

Lemma empty_false_length l : empty l = false <-> 0 < Z.of_nat (List.length l).
Proof.
  destruct l; simpl; split; intros H; try lia; try discriminate; auto.
Qed.

(** The engine accepts the file: the former sound is released first, the new
    one is bound to the file at the index, gets the session volume and the
    end callback, and is started exactly when asked. *)
Lemma InitializeAndPlaySound_accepted engine i start s :
  empty (track_list s) = false ->
  0 <= i < size_as_int (track_list s) ->
  engine (at_index (track_list s) i) = MA_SUCCESS ->
  InitializeAndPlaySound engine i start s =
  (true,
   {| sound := mk_sound (at_index (track_list s) i) start (volume s) true;
      sound_initialized := true;
      track_list := track_list s;
      current_track_index := i;
      is_playing := start;
      volume := volume s;
      music_load_future := music_load_future s;
      is_loading_music := is_loading_music s;
      was_playing_before_async_load := was_playing_before_async_load s;
      playing_song_before_async_load := playing_song_before_async_load s;
      track_ended_flag := track_ended_flag s;
      show_music_player_window := show_music_player_window s;
      ma_calls :=
        ma_calls s ++ release_calls s
        ++ [Call_sound_init_from_file (at_index (track_list s) i) MA_SUCCESS;
            Call_sound_set_volume (volume s);
            Call_sound_set_end_callback]
        ++ (if start then [Call_sound_start] else []) |}).
Proof.
  intros He Hi Hok.
  unfold InitializeAndPlaySound, UninitializeCurrentSound, release_calls,
    ma_sound_init_from_file.
  destruct s as [snd ini tl idx pl vol fut ld wp sg fl sh calls]; simpl in *.
  destruct ini; simpl; rewrite (valid_index_passes _ _ He Hi), Hok; simpl;
    destruct start; unfold_updates; rewrite <- ?app_assoc; reflexivity.
Qed.

(** The engine rejects the file: the former sound has been released, none is
    bound, and nothing else changes. *)
Lemma InitializeAndPlaySound_rejected engine i start s :
  empty (track_list s) = false ->
  0 <= i < size_as_int (track_list s) ->
  engine (at_index (track_list s) i) = MA_ERROR ->
  InitializeAndPlaySound engine i start s =
  (false,
   {| sound := sound s;
      sound_initialized := false;
      track_list := track_list s;
      current_track_index := current_track_index s;
      is_playing := false;
      volume := volume s;
      music_load_future := music_load_future s;
      is_loading_music := is_loading_music s;
      was_playing_before_async_load := was_playing_before_async_load s;
      playing_song_before_async_load := playing_song_before_async_load s;
      track_ended_flag := track_ended_flag s;
      show_music_player_window := show_music_player_window s;
      ma_calls :=
        ma_calls s ++ release_calls s
        ++ [Call_sound_init_from_file (at_index (track_list s) i) MA_ERROR] |}).
Proof.
  intros He Hi Hko.
  unfold InitializeAndPlaySound, UninitializeCurrentSound, release_calls,
    ma_sound_init_from_file.
  destruct s as [snd ini tl idx pl vol fut ld wp sg fl sh calls]; simpl in *.
  destruct ini; simpl; rewrite (valid_index_passes _ _ He Hi), Hko;
    unfold_updates; rewrite <- ?app_assoc; reflexivity.
Qed.

(** The index is refused by the guard: the former sound has been released
    all the same, and the engine is not asked for a file. *)
Lemma InitializeAndPlaySound_invalid engine i start s :
  empty (track_list s) || (i <? 0) || (i >=? size_as_int (track_list s)) = true ->
  InitializeAndPlaySound engine i start s =
  (false,
   {| sound := sound s;
      sound_initialized := false;
      track_list := track_list s;
      current_track_index := current_track_index s;
      is_playing := false;
      volume := volume s;
      music_load_future := music_load_future s;
      is_loading_music := is_loading_music s;
      was_playing_before_async_load := was_playing_before_async_load s;
      playing_song_before_async_load := playing_song_before_async_load s;
      track_ended_flag := track_ended_flag s;
      show_music_player_window := show_music_player_window s;
      ma_calls := ma_calls s ++ release_calls s |}).
Proof.
  intros Hbad.
  unfold InitializeAndPlaySound, UninitializeCurrentSound, release_calls.
  destruct s as [snd ini tl idx pl vol fut ld wp sg fl sh calls]; simpl in *.
  destruct ini; simpl; rewrite Hbad; unfold_updates; rewrite ?app_nil_r;
    reflexivity.
Qed.

(** The index that [HandleNextTrack] computes, when the catalog length fits
    an [int] and the current index is inside the catalog. *)
Lemma next_track_index_mod s :
  0 < Z.of_nat (List.length (track_list s)) <= Int.INT_MAX ->
  0 <= current_track_index s < Z.of_nat (List.length (track_list s)) ->
  next_track_index s
  = (current_track_index s + 1) mod Z.of_nat (List.length (track_list s)).
Proof.
  intros Hn Hi. unfold next_track_index.
  set (n := Z.of_nat (List.length (track_list s))) in *.
  set (i := current_track_index s) in *.
  assert (Hmax : Int.INT_MAX = 2147483647) by reflexivity.
  rewrite (IntFacts.wrap_small (i + 1))
    by (unfold Int.in_range, Int.INT_MIN; lia).
  rewrite IntFacts.to_size_t_small by lia.
  pose proof (Z.mod_pos_bound (i + 1) n ltac:(lia)).
  apply IntFacts.wrap_small. unfold Int.in_range, Int.INT_MIN. lia.
Qed.

(** Whatever the current index, the computed index is inside a catalog
    whose length fits an [int]. *)
Lemma next_track_index_in_bounds s :
  0 < Z.of_nat (List.length (track_list s)) <= Int.INT_MAX ->
  0 <= next_track_index s < size_as_int (track_list s).
Proof.
  intros Hn. rewrite size_as_int_fits by lia. unfold next_track_index.
  set (n := Z.of_nat (List.length (track_list s))) in *.
  assert (Hmax : Int.INT_MAX = 2147483647) by reflexivity.
  pose proof (Z.mod_pos_bound
                (Int.to_size_t (Int.wrap (current_track_index s + 1))) n
                ltac:(lia)).
  rewrite IntFacts.wrap_small by (unfold Int.in_range, Int.INT_MIN; lia). lia.
Qed.

(** ** Outcomes of [HandleNextTrack] *)

Lemma HandleNextTrack_empty engine s :
  track_list s = [] -> HandleNextTrack engine s = s.
Proof. intros H. unfold HandleNextTrack. rewrite H. reflexivity. Qed.

Lemma nonempty_empty_false (l : list string) : l <> [] -> empty l = false.
Proof. destruct l; [congruence | reflexivity]. Qed.

Lemma HandleNextTrack_load engine s :
  track_list s <> [] ->
  HandleNextTrack engine s
  = snd (InitializeAndPlaySound engine (next_track_index s) (is_playing s) s).
Proof.
  intros H. unfold HandleNextTrack. now rewrite (nonempty_empty_false _ H).
Qed.

(** ** The claims *)

(** C1.  The code breaks the invariant at the completion of a refresh.
    While a scan runs the former catalog is still displayed and Play is
    still accepted; the completion then lowers [is_playing] without
    releasing the sound that Play bound.  In [stale_sound_on_empty_catalog]
    the catalog is empty and the session does not play, yet the sound is
    bound and its output is running: the session is not Playing, is not
    Paused (the output was never stopped) and is not Stopped (a sound is
    bound).  [stale_sound_after_pause] is the same on a catalog that is
    not empty. *)
Theorem refresh_completion_keeps_a_running_sound :
  (track_list stale_sound_on_empty_catalog = []
   /\ is_playing stale_sound_on_empty_catalog = false
   /\ sound_initialized stale_sound_on_empty_catalog = true
   /\ snd_started (sound stale_sound_on_empty_catalog) = true
   /\ snd_file (sound stale_sound_on_empty_catalog) = "./music/x.mp3"
   /\ ma_calls stale_sound_on_empty_catalog
      = [Call_sound_init_from_file "./music/x.mp3" MA_SUCCESS;
         Call_sound_set_volume 1%Q; Call_sound_set_end_callback;
         Call_sound_start;
         Call_sound_stop; Call_sound_uninit;
         Call_sound_init_from_file "./music/x.mp3" MA_SUCCESS;
         Call_sound_set_volume 1%Q; Call_sound_set_end_callback;
         Call_sound_start])
  /\ (track_list stale_sound_after_pause = three_tracks
      /\ is_playing stale_sound_after_pause = false
      /\ sound_initialized stale_sound_after_pause = true
      /\ snd_started (sound stale_sound_after_pause) = true).
Proof.
  repeat match goal with |- _ /\ _ => split end; vm_compute; reflexivity.
Qed.

(** One advance with an engine that accepts the file, on an index inside
    the catalog. *)
Lemma HandleNextTrack_accepted_index engine s :
  0 < Z.of_nat (List.length (track_list s)) <= Int.INT_MAX ->
  engine (at_index (track_list s) (next_track_index s)) = MA_SUCCESS ->
  track_list (HandleNextTrack engine s) = track_list s
  /\ current_track_index (HandleNextTrack engine s) = next_track_index s
  /\ snd_file (sound (HandleNextTrack engine s))
     = at_index (track_list s) (next_track_index s).
Proof.
  intros Hn Hok.
  assert (He : empty (track_list s) = false) by (apply empty_false_length; lia).
  unfold HandleNextTrack. rewrite He.
  rewrite (InitializeAndPlaySound_accepted _ _ _ _ He
             (next_track_index_in_bounds s Hn) Hok).
  repeat split.
Qed.

Lemma repeat_Next_index k : forall s,
  0 < Z.of_nat (List.length (track_list s)) <= Int.INT_MAX ->
  0 <= current_track_index s < Z.of_nat (List.length (track_list s)) ->
  current_track_index (run (repeat (Next accept_all) k) s)
  = (current_track_index s + Z.of_nat k) mod Z.of_nat (List.length (track_list s)).
Proof.
  induction k as [|k IH]; intros s Hn Hi.
  - simpl. rewrite Z.add_0_r. symmetry. apply Z.mod_small. exact Hi.
  - cbn [repeat run apply_event].
    destruct (HandleNextTrack_accepted_index accept_all s Hn eq_refl)
      as [Htl [Hidx _]].
    rewrite (next_track_index_mod s Hn Hi) in Hidx.
    pose proof (Z.mod_pos_bound (current_track_index s + 1)
                  (Z.of_nat (List.length (track_list s))) ltac:(lia)) as Hb.
    rewrite IH; rewrite Htl, ?Hidx; try assumption.
    rewrite Zplus_mod_idemp_l. f_equal. lia.
Qed.

(** C2. With a non-empty catalog of length [n] (an [int] value) and the
    current index [i] in [0, n), Next and the automatic advance ask for the
    track at index [(i + 1) mod n] and, the engine accepting it, make it the
    current index; with one track that is the same track again; and [k]
    advances in a row arrive at [(i + k) mod n], for every [k]. *)
Theorem advance_index_wraps (s : PlayerState) :
  0 < Z.of_nat (List.length (track_list s)) <= Int.INT_MAX ->
  0 <= current_track_index s < Z.of_nat (List.length (track_list s)) ->
  let n := Z.of_nat (List.length (track_list s)) in
  let i := current_track_index s in
  next_track_index s = (i + 1) mod n
  /\ (n = 1 -> next_track_index s = i)
  /\ (forall engine,
        engine (at_index (track_list s) ((i + 1) mod n)) = MA_SUCCESS ->
        current_track_index (HandleNextTrack engine s) = (i + 1) mod n
        /\ snd_file (sound (HandleNextTrack engine s))
           = at_index (track_list s) ((i + 1) mod n)
        /\ (track_ended_flag s = true -> is_playing s = true ->
            current_track_index (ProcessAudioEvents engine s) = (i + 1) mod n))
  /\ (forall k,
        current_track_index (run (repeat (Next accept_all) k) s)
        = (i + Z.of_nat k) mod n).
Proof.
  intros Hn Hi n i.
  pose proof (next_track_index_mod s Hn Hi) as Hnext. fold n i in Hnext.
  split; [exact Hnext | split; [| split]].
  - intros H1. rewrite Hnext, H1. subst n i. rewrite Z.mod_1_r. lia.
  - intros engine Hok. rewrite <- Hnext in *.
    destruct (HandleNextTrack_accepted_index engine s Hn Hok) as [_ [H1 H2]].
    repeat split; auto.
    intros Hflag Hplay. unfold ProcessAudioEvents. rewrite Hflag.
    cbn [is_playing set_track_ended_flag]. rewrite Hplay.
    apply (HandleNextTrack_accepted_index engine (set_track_ended_flag false s));
      assumption.
  - intros k. apply repeat_Next_index; assumption.
Qed.

Lemma advance_index_wraps_witness :
  0 < Z.of_nat (List.length (track_list playing_y)) <= Int.INT_MAX
  /\ 0 <= current_track_index playing_y
        < Z.of_nat (List.length (track_list playing_y))
  /\ next_track_index playing_y = 2
  /\ current_track_index (run (repeat (Next accept_all) 5) playing_y) = 0.
Proof.
  assert (Hn : 0 < Z.of_nat (List.length (track_list playing_y)) <= Int.INT_MAX)
    by (vm_compute; split; [reflexivity | discriminate]).
  assert (Hi : 0 <= current_track_index playing_y
               < Z.of_nat (List.length (track_list playing_y)))
    by (vm_compute; split; [discriminate | reflexivity]).
  split; [exact Hn | split; [exact Hi |]].
  pose proof (advance_index_wraps playing_y Hn Hi) as [H1 [_ [_ H4]]].
  split; [exact H1 | exact (H4 5%nat)].
Defined.

(** C3, as stated, fails: from Stopped on a two-track catalog, Next with an
    engine that accepts every file binds the next track without starting it;
    the status is Paused, not Playing.  And on the empty catalog of
    [emptied_while_bound], where a sound is still held, Next changes
    nothing: the status stays Paused, not Stopped. *)
Lemma advance_from_stopped_is_not_playing :
  (track_list stopped_on_two = two_tracks
   /\ status stopped_on_two = Stopped
   /\ status (HandleNextTrack accept_all stopped_on_two) = Paused
   /\ status (HandleNextTrack accept_all stopped_on_two) <> Playing
   /\ ma_calls (HandleNextTrack accept_all stopped_on_two)
      = [Call_sound_init_from_file "./music/b.wav" MA_SUCCESS;
         Call_sound_set_volume 1%Q;
         Call_sound_set_end_callback])
  /\ (track_list emptied_while_bound = []
      /\ status (HandleNextTrack accept_all emptied_while_bound) = Paused
      /\ status (HandleNextTrack accept_all emptied_while_bound) <> Stopped).
Proof.
  repeat split; try reflexivity; vm_compute; discriminate.
Qed.

(** C3, amended. With a non-empty catalog whose length is an [int] value,
    Advance first releases the sound it holds, then asks the engine for the
    file at the next index.  If the engine accepts, the sound is bound to
    that track, the index moves to it, and the sound is started and the
    status is Playing exactly when the session was playing before the
    event; otherwise the sound stays unstarted and the status is Paused.  If
    the engine rejects, the status is Stopped.  With an empty catalog
    Advance changes nothing. *)
Theorem advance_releases_then_loads engine (s : PlayerState) :
  Z.of_nat (List.length (track_list s)) <= Int.INT_MAX ->
  (track_list s <> [] ->
   let path := at_index (track_list s) (next_track_index s) in
   let s' := HandleNextTrack engine s in
   match engine path with
   | MA_SUCCESS =>
       ma_calls s'
       = ma_calls s ++ release_calls s
         ++ [Call_sound_init_from_file path MA_SUCCESS;
             Call_sound_set_volume (volume s);
             Call_sound_set_end_callback]
         ++ (if is_playing s then [Call_sound_start] else [])
       /\ bound s'
       /\ snd_file (sound s') = path
       /\ snd_started (sound s') = is_playing s
       /\ current_track_index s' = next_track_index s
       /\ status s' = (if is_playing s then Playing else Paused)
   | MA_ERROR =>
       ma_calls s'
       = ma_calls s ++ release_calls s
         ++ [Call_sound_init_from_file path MA_ERROR]
       /\ ~ bound s'
       /\ status s' = Stopped
   end)
  /\ (track_list s = [] -> HandleNextTrack engine s = s).
Proof.
  intros Hfit. split; [| apply HandleNextTrack_empty].
  intros Hne path s'. subst s'. rewrite (HandleNextTrack_load _ _ Hne).
  assert (He : empty (track_list s) = false) by now apply nonempty_empty_false.
  assert (Hb : 0 <= next_track_index s < size_as_int (track_list s)).
  { apply next_track_index_in_bounds. split; [| exact Hfit].
    now apply empty_false_length. }
  destruct (engine path) eqn:Heng; subst path.
  - rewrite (InitializeAndPlaySound_accepted _ _ _ _ He Hb Heng).
    unfold bound, status. simpl. destruct (is_playing s); repeat split.
  - rewrite (InitializeAndPlaySound_rejected _ _ _ _ He Hb Heng).
    unfold bound, status. simpl. repeat split. discriminate.
Qed.

Lemma advance_releases_then_loads_witness :
  Z.of_nat (List.length (track_list playing_y)) <= Int.INT_MAX
  /\ track_list playing_y <> []
  /\ status (HandleNextTrack accept_all playing_y) = Playing
  /\ current_track_index (HandleNextTrack accept_all playing_y) = 2.
Proof.
  assert (Hfit : Z.of_nat (List.length (track_list playing_y)) <= Int.INT_MAX)
    by (vm_compute; discriminate).
  assert (Hne : track_list playing_y <> []) by (vm_compute; discriminate).
  split; [exact Hfit | split; [exact Hne |]].
  pose proof (proj1 (advance_releases_then_loads accept_all playing_y Hfit) Hne)
    as H.
  cbv zeta in H. change (accept_all _) with MA_SUCCESS in H.
  cbv iota beta in H. destruct H as [_ [_ [_ [_ [H5 H6]]]]].
  split; [exact H6 | exact H5].
Defined.

(** ** Refresh *)

Lemma find_index_found l x k :
  find_index l x = Some k ->
  0 <= k < Z.of_nat (List.length l) /\ at_index l k = x.
Proof.
  revert k. induction l as [|y l IH]; intros k H; simpl in H; [discriminate|].
  destruct (String.eqb y x) eqn:E.
  - injection H as <-. apply String.eqb_eq in E. subst y.
    split; [simpl List.length; lia | reflexivity].
  - destruct (find_index l x) as [k'|]; [| discriminate].
    injection H as <-. destruct (IH k' eq_refl) as [Hk Hat].
    split; [simpl List.length; lia |].
    unfold at_index in *. replace (Z.to_nat (k' + 1)) with (S (Z.to_nat k')) by lia.
    exact Hat.
Qed.

(** [std::find] returns the first occurrence. *)
Lemma find_index_first l x k :
  find_index l x = Some k ->
  forall j, 0 <= j < k -> at_index l j <> x.
Proof.
  revert k. induction l as [|y l IH]; intros k H j Hj; simpl in H; [discriminate|].
  destruct (String.eqb y x) eqn:E.
  - injection H as <-. lia.
  - destruct (find_index l x) as [k'|]; [| discriminate].
    injection H as <-. apply String.eqb_neq in E.
    destruct (Z.eq_dec j 0) as [-> | Hj0]; [exact E |].
    unfold at_index. replace (Z.to_nat j) with (S (Z.to_nat (j - 1))) by lia.
    apply (IH k' eq_refl (j - 1)). lia.
Qed.

Lemma find_index_absent l x : find_index l x = None <-> ~ In x l.
Proof.
  induction l as [|y l IH]; simpl.
  - split; auto.
  - destruct (String.eqb y x) eqn:E.
    + apply String.eqb_eq in E. split; [discriminate | intros H; exfalso; auto].
    + apply String.eqb_neq in E. destruct (find_index l x).
      * split; [discriminate |]. intros H. exfalso.
        destruct (in_dec string_dec x l) as [Hin | Hout]; [tauto |].
        apply IH in Hout. discriminate.
      * split; auto. intros _ [H | H]; [congruence | now apply IH].
Qed.

(** The state left by a refresh request that is not ignored. *)
Lemma TriggerLoadMusicFilesAsync_refresh s :
  is_loading_music s = false ->
  TriggerLoadMusicFilesAsync false s =
  {| sound :=
       if sound_initialized s
       then mk_sound (snd_file (sound s)) false (snd_volume (sound s))
                     (snd_end_callback (sound s))
       else sound s;
     sound_initialized := false;
     track_list := track_list s;
     current_track_index := current_track_index s;
     is_playing := false;
     volume := volume s;
     music_load_future := true;
     is_loading_music := true;
     was_playing_before_async_load := is_playing s;
     playing_song_before_async_load :=
       if negb (empty (track_list s))
          && index_in_bounds (track_list s) (current_track_index s)
       then at_index (track_list s) (current_track_index s) else EmptyString;
     track_ended_flag := track_ended_flag s;
     show_music_player_window := show_music_player_window s;
     ma_calls :=
       ma_calls s
       ++ (if sound_initialized s
           then [Call_sound_stop; Call_sound_uninit] else []) |}.
Proof.
  intros Hld. unfold TriggerLoadMusicFilesAsync. rewrite Hld.
  destruct s as [snd ini tl idx pl vol fut ld wp sg fl sh calls].
  cbn [negb]. unfold_updates.
  destruct (negb (empty tl) && index_in_bounds tl idx), ini;
    unfold_updates; rewrite <- ?app_assoc, ?app_nil_r; reflexivity.
Qed.

Section Completion.

Variable engine : string -> ma_result.
Variable s : PlayerState.
Variable tracks : list string.

Hypothesis loading : is_loading_music s = true.
Hypothesis future_valid : music_load_future s = true.

Lemma completion_steps :
  ProcessAsyncMusicLoadCompletion engine (Ready (FsOk tracks)) s
  = forget_capture
      (if was_playing_before_async_load s
          && negb (String.eqb (playing_song_before_async_load s) EmptyString)
       then match find_index tracks (playing_song_before_async_load s) with
            | Some it =>
                snd (InitializeAndPlaySound engine (Int.wrap it) true
                       (catalog_replaced s tracks))
            | None => (catalog_replaced s tracks)
            end
       else (catalog_replaced s tracks)).
Proof.
  unfold ProcessAsyncMusicLoadCompletion. rewrite loading, future_valid.
  reflexivity.
Qed.

(** No resumption: the catalog is replaced, the index is 0, the playing
    flag is down, and the sound is left as it was. *)
Lemma completion_without_resume :
  was_playing_before_async_load s = false
  \/ playing_song_before_async_load s = EmptyString
  \/ find_index tracks (playing_song_before_async_load s) = None ->
  ProcessAsyncMusicLoadCompletion engine (Ready (FsOk tracks)) s
  = forget_capture (catalog_replaced s tracks).
Proof.
  intros H. rewrite completion_steps.
  destruct (was_playing_before_async_load s) eqn:Hw; [| reflexivity].
  destruct (String.eqb (playing_song_before_async_load s) EmptyString) eqn:He;
    [reflexivity |].
  destruct H as [H | [H | H]].
  - discriminate.
  - apply String.eqb_neq in He. contradiction.
  - cbn [andb negb]. rewrite H. reflexivity.
Qed.

(** Resumption: the song is found and the load is attempted on it. *)
Lemma completion_with_resume k :
  was_playing_before_async_load s = true ->
  playing_song_before_async_load s <> EmptyString ->
  find_index tracks (playing_song_before_async_load s) = Some k ->
  Z.of_nat (List.length tracks) <= Int.INT_MAX ->
  ProcessAsyncMusicLoadCompletion engine (Ready (FsOk tracks)) s
  = forget_capture
      (snd (InitializeAndPlaySound engine k true (catalog_replaced s tracks)))
  /\ empty (track_list (catalog_replaced s tracks)) = false
  /\ 0 <= k < size_as_int (track_list (catalog_replaced s tracks))
  /\ at_index (track_list (catalog_replaced s tracks)) k
     = playing_song_before_async_load s.
Proof.
  intros Hw Hs Hk Hfit. rewrite completion_steps, Hw.
  apply String.eqb_neq in Hs. rewrite Hs. cbn [andb negb]. rewrite Hk.
  destruct (find_index_found _ _ _ Hk) as [Hb Hat].
  assert (Hmax : Int.INT_MAX = 2147483647) by reflexivity.
  rewrite IntFacts.wrap_small by (unfold Int.in_range, Int.INT_MIN; lia).
  change (track_list (catalog_replaced s tracks)) with tracks.
  rewrite size_as_int_fits by exact Hfit.
  repeat split; try lia; try assumption.
  apply empty_false_length. lia.
Qed.

End Completion.

(** C4, as stated, fails: the session is paused on the second of three
    tracks, a refresh is requested and completes with the same three
    tracks; the captured track is in the new catalog at position 1, yet the
    current index is 0. *)
Lemma refresh_while_paused_resets_index :
  status paused_on_y = Paused
  /\ current_track_index paused_on_y = 1
  /\ playing_song_before_async_load refresh_requested_while_paused
     = "./music/y.mp3"
  /\ find_index three_tracks "./music/y.mp3" = Some 1
  /\ track_list refreshed_after_pause = three_tracks
  /\ current_track_index refreshed_after_pause = 0
  /\ current_track_index refreshed_after_pause <> 1.
Proof.
  repeat split; try (vm_compute; reflexivity). vm_compute. discriminate.
Qed.

(** C4, amended. A refresh is requested while no scan is in flight and
    completes, no command in between, with a scan result whose length is an
    [int] value.  The catalog is the scan result.  The song captured at the
    request is the track at the current index, or the empty string when the
    index designates none (as with an empty catalog).  If the session was
    playing at the request and the captured song is not empty and occurs in
    the result, the engine is asked for it and, accepting it, leaves the
    session Playing on that track with the current index at the track's
    first position in the result.  In every other case (not playing at the
    request, no current track, track absent, file rejected) the current
    index is 0 and the session is Stopped. *)
Theorem refresh_reconciles engine (s : PlayerState) (tracks : list string) :
  is_loading_music s = false ->
  Z.of_nat (List.length tracks) <= Int.INT_MAX ->
  let song :=
    if negb (empty (track_list s))
       && index_in_bounds (track_list s) (current_track_index s)
    then at_index (track_list s) (current_track_index s)
    else EmptyString in
  let s' := ProcessAsyncMusicLoadCompletion engine (Ready (FsOk tracks))
              (TriggerLoadMusicFilesAsync false s) in
  track_list s' = tracks
  /\ is_loading_music s' = false
  /\ if is_playing s && negb (String.eqb song EmptyString) then
       match find_index tracks song, engine song with
       | Some k, MA_SUCCESS =>
           current_track_index s' = k
           /\ at_index tracks k = song
           /\ (forall j, 0 <= j < k -> at_index tracks j <> song)
           /\ status s' = Playing
           /\ bound s'
           /\ snd_file (sound s') = song
           /\ snd_started (sound s') = true
       | _, _ => current_track_index s' = 0 /\ status s' = Stopped
       end
     else current_track_index s' = 0 /\ status s' = Stopped.
Proof.
  intros Hld Hfit song s'.
  set (s1 := TriggerLoadMusicFilesAsync false s) in *.
  assert (Hs1 : is_loading_music s1 = true /\ music_load_future s1 = true
                /\ was_playing_before_async_load s1 = is_playing s
                /\ playing_song_before_async_load s1 = song
                /\ sound_initialized s1 = false).
  { subst s1. rewrite (TriggerLoadMusicFilesAsync_refresh s Hld).
    cbn [is_loading_music music_load_future was_playing_before_async_load
         playing_song_before_async_load sound_initialized].
    repeat split. }
  destruct Hs1 as [Hl1 [Hf1 [Hw1 [Hsg1 Hini1]]]].
  assert (Hnone :
    was_playing_before_async_load s1 = false
    \/ playing_song_before_async_load s1 = EmptyString
    \/ find_index tracks (playing_song_before_async_load s1) = None ->
    track_list s' = tracks /\ is_loading_music s' = false
    /\ current_track_index s' = 0 /\ status s' = Stopped).
  { intros H. subst s'.
    rewrite (completion_without_resume engine s1 tracks Hl1 Hf1 H).
    unfold status, forget_capture, catalog_replaced.
    cbn [track_list is_loading_music current_track_index is_playing
         sound_initialized set_is_loading_music
         set_playing_song_before_async_load set_was_playing_before_async_load
         set_is_playing set_current_track_index set_track_list
         set_music_load_future].
    rewrite Hini1. repeat split. }
  destruct (is_playing s) eqn:Hp; cbn [andb];
    [| destruct Hnone as [A [B C]]; [left; congruence | auto]].
  destruct (String.eqb song EmptyString) eqn:Hsong; cbn [negb].
  { apply String.eqb_eq in Hsong.
    destruct Hnone as [A [B C]]; [right; left; congruence | auto]. }
  apply String.eqb_neq in Hsong.
  destruct (find_index tracks song) as [k|] eqn:Hk;
    [| destruct Hnone as [A [B C]];
       [right; right; rewrite Hsg1; exact Hk | auto]].
  rewrite <- Hsg1 in Hsong, Hk.
  destruct (completion_with_resume engine s1 tracks Hl1 Hf1 k Hw1 Hsong Hk Hfit)
    as [Heq [He [Hb Hat]]].
  rewrite Hsg1 in Hk, Hat.
  subst s'. rewrite Heq. clear Heq Hnone.
  destruct (engine song) eqn:Heng; rewrite <- Hat in Heng.
  - rewrite (InitializeAndPlaySound_accepted _ _ _ _ He Hb Heng).
    unfold status, bound, forget_capture. unfold_updates.
    repeat split; try assumption.
    apply (find_index_first _ _ _ Hk).
  - rewrite (InitializeAndPlaySound_rejected _ _ _ _ He Hb Heng).
    unfold status, forget_capture. unfold_updates.
    repeat split.
Qed.

(** The spec's example: [y] is playing in [x; y; z] and the rescan finds
    [y; z]. *)
Lemma refresh_reconciles_witness :
  is_loading_music playing_y = false
  /\ Z.of_nat (List.length ["./music/y.mp3"; "./music/z.mp3"]) <= Int.INT_MAX
  /\ current_track_index
       (ProcessAsyncMusicLoadCompletion accept_all
          (Ready (FsOk ["./music/y.mp3"; "./music/z.mp3"]))
          (TriggerLoadMusicFilesAsync false playing_y)) = 0
  /\ status
       (ProcessAsyncMusicLoadCompletion accept_all
          (Ready (FsOk ["./music/y.mp3"; "./music/z.mp3"]))
          (TriggerLoadMusicFilesAsync false playing_y)) = Playing.
Proof.
  assert (H1 : is_loading_music playing_y = false) by reflexivity.
  assert (H3 : Z.of_nat (List.length ["./music/y.mp3"; "./music/z.mp3"])
               <= Int.INT_MAX) by (vm_compute; discriminate).
  split; [exact H1 | split; [exact H3 |]].
  pose proof (refresh_reconciles accept_all playing_y
                ["./music/y.mp3"; "./music/z.mp3"] H1 H3) as H.
  cbv zeta in H. destruct H as [_ [_ H]].
  change (is_playing playing_y && _) with true in H.
  change (find_index _ _) with (Some 0) in H.
  cbv iota beta in H.
  change (accept_all _) with MA_SUCCESS in H. cbv iota beta in H.
  destruct H as [Hi [_ [_ [Hs _]]]]. split; [exact Hi | exact Hs].
Defined.

(** ** The end-of-track flag *)

Lemma InitializeAndPlaySound_keeps_flag engine i start s :
  track_ended_flag (snd (InitializeAndPlaySound engine i start s))
  = track_ended_flag s.
Proof.
  unfold InitializeAndPlaySound, UninitializeCurrentSound,
    ma_sound_init_from_file.
  destruct s as [snd ini tl idx pl vol fut ld wp sg fl sh calls].
  destruct ini; unfold_updates; split_tests; reflexivity.
Qed.

(** C5. [ProcessAudioEvents], called once in each loop iteration, reads the
    flag and leaves it cleared.  If it was set and the session is playing,
    the advance of [HandleNextTrack] takes place; if it was set and the
    session is Paused or Stopped, the signal is dropped: nothing but the
    flag changes, so no engine call is made and the current track stays; if
    it was not set nothing changes. *)
Theorem track_end_signal_drained engine (s : PlayerState) :
  track_ended_flag (ProcessAudioEvents engine s) = false
  /\ (track_ended_flag s = true -> status s = Playing ->
      ProcessAudioEvents engine s
      = HandleNextTrack engine (set_track_ended_flag false s))
  /\ (track_ended_flag s = true -> status s = Paused \/ status s = Stopped ->
      ProcessAudioEvents engine s = set_track_ended_flag false s
      /\ current_track_index (ProcessAudioEvents engine s) = current_track_index s
      /\ sound (ProcessAudioEvents engine s) = sound s
      /\ ma_calls (ProcessAudioEvents engine s) = ma_calls s
      /\ status (ProcessAudioEvents engine s) = status s)
  /\ (track_ended_flag s = false -> ProcessAudioEvents engine s = s)
  /\ (forall poll ui,
        main_loop_iteration engine poll ui s
        = RenderUI engine ui
            (ProcessAudioEvents engine
               (ProcessAsyncMusicLoadCompletion engine poll s))).
Proof.
  split; [| split; [| split; [| split]]].
  - unfold ProcessAudioEvents.
    destruct (track_ended_flag s) eqn:Hf; [| reflexivity].
    cbn [is_playing set_track_ended_flag].
    destruct (is_playing s); [| reflexivity].
    unfold HandleNextTrack.
    destruct (empty _); [reflexivity |].
    now rewrite InitializeAndPlaySound_keeps_flag.
  - intros Hf Hs. unfold ProcessAudioEvents. rewrite Hf.
    cbn [is_playing set_track_ended_flag].
    unfold status in Hs. destruct (is_playing s); [reflexivity |].
    destruct (sound_initialized s); discriminate.
  - intros Hf Hs. unfold ProcessAudioEvents. rewrite Hf.
    cbn [is_playing set_track_ended_flag].
    unfold status in *. destruct (is_playing s) eqn:Hp.
    + destruct Hs; discriminate.
    + cbn [is_playing set_track_ended_flag]. rewrite Hp. repeat split.
  - intros Hf. unfold ProcessAudioEvents. rewrite Hf.
    destruct s; simpl in *. subst. reflexivity.
  - reflexivity.
Qed.

(** ** Load failure *)

Lemma HandlePlayPause_loads engine s :
  index_in_bounds (track_list s) (current_track_index s) = true ->
  is_playing s = false -> sound_initialized s = false ->
  HandlePlayPause engine s
  = snd (InitializeAndPlaySound engine (current_track_index s) true s).
Proof.
  intros Hin Hp Hi. unfold HandlePlayPause, index_in_bounds in *.
  apply andb_true_iff in Hin as [H0 H1].
  destruct (track_list s) eqn:Htl.
  - change (size_as_int []) with 0 in H1. lia.
  - cbn [empty].
    replace (current_track_index s <? 0) with false by (symmetry; apply Z.ltb_ge; lia).
    rewrite Z.geb_leb.
    replace (size_as_int (s0 :: l) <=? current_track_index s) with false
      by (symmetry; apply Z.leb_gt; lia).
    rewrite Hp, Hi. reflexivity.
Qed.

(** Next after Next, on a target that the engine keeps rejecting. *)
Lemma repeat_Next_rejected engine k : forall s,
  empty (track_list s) = false ->
  0 <= next_track_index s < size_as_int (track_list s) ->
  engine (at_index (track_list s) (next_track_index s)) = MA_ERROR ->
  current_track_index (run (repeat (Next engine) (S k)) s)
  = current_track_index s
  /\ track_list (run (repeat (Next engine) (S k)) s) = track_list s
  /\ is_playing (run (repeat (Next engine) (S k)) s) = false
  /\ sound_initialized (run (repeat (Next engine) (S k)) s) = false.
Proof.
  induction k as [|k IH]; intros s He Hb Hko;
    change (run (repeat (Next engine) (S ?n)) s)
      with (run (repeat (Next engine) n) (HandleNextTrack engine s));
    assert (Hstep : HandleNextTrack engine s
                    = snd (InitializeAndPlaySound engine (next_track_index s)
                             (is_playing s) s))
      by (unfold HandleNextTrack; now rewrite He);
    rewrite (InitializeAndPlaySound_rejected _ _ _ _ He Hb Hko) in Hstep;
    cbn [snd] in Hstep.
  - cbn [repeat run]. rewrite Hstep. repeat split.
  - set (s1 := HandleNextTrack engine s) in *.
    assert (H1 : track_list s1 = track_list s
                 /\ current_track_index s1 = current_track_index s
                 /\ next_track_index s1 = next_track_index s)
      by (rewrite Hstep; repeat split).
    destruct H1 as [Htl [Hidx Hnext]].
    destruct (IH s1) as [Hi' [Ht' [Hp' Hs']]];
      rewrite ?Htl, ?Hnext; auto.
    rewrite Hi', Ht', Hidx, Htl. auto.
Qed.

(** C6, as stated, fails in its last part: the track that Next failed to
    load is not skipped by Next.  From the session playing the second of
    three tracks, with an engine that rejects the third, Next leaves the
    index on the second track, and every further Next asks for the third
    again: after one, two, three and ten presses the index is still 1, and
    the first track is never reached. *)
Lemma rejected_track_is_not_skipped_by_next :
  current_track_index playing_y = 1
  /\ rejects_z (at_index (track_list playing_y) 2) = MA_ERROR
  /\ rejects_z (at_index (track_list playing_y) 0) = MA_SUCCESS
  /\ current_track_index (run (repeat (Next rejects_z) 1) playing_y) = 1
  /\ current_track_index (run (repeat (Next rejects_z) 2) playing_y) = 1
  /\ current_track_index (run (repeat (Next rejects_z) 3) playing_y) = 1
  /\ current_track_index (run (repeat (Next rejects_z) 10) playing_y) = 1
  /\ status (run (repeat (Next rejects_z) 10) playing_y) = Stopped
  /\ ma_calls (run (repeat (Next rejects_z) 3) playing_y)
     = ma_calls playing_y
       ++ [Call_sound_uninit;
           Call_sound_init_from_file "./music/z.mp3" MA_ERROR;
           Call_sound_init_from_file "./music/z.mp3" MA_ERROR;
           Call_sound_init_from_file "./music/z.mp3" MA_ERROR].
Proof.
  repeat match goal with |- _ /\ _ => split end; vm_compute; reflexivity.
Qed.

(** C6, amended. When the engine rejects the file of a load, the load
    reports failure, the session is Stopped with no sound bound, and the
    catalog and the current index are what they were: the failing track is
    still in the catalog, at its place.  This is so for Next in particular.
    Play/Pause on the session left by the failure attempts the load of the
    current track again; Next attempts the same target again, and as long
    as the engine rejects it the index does not move, however often Next is
    pressed. *)
Theorem load_failure_stops engine (s : PlayerState) (i : Z) (start : bool) :
  empty (track_list s) = false ->
  0 <= i < size_as_int (track_list s) ->
  engine (at_index (track_list s) i) = MA_ERROR ->
  let r := InitializeAndPlaySound engine i start s in
  fst r = false
  /\ status (snd r) = Stopped
  /\ ~ bound (snd r)
  /\ track_list (snd r) = track_list s
  /\ at_index (track_list (snd r)) i = at_index (track_list s) i
  /\ current_track_index (snd r) = current_track_index s
  /\ (i = next_track_index s -> start = is_playing s ->
      HandleNextTrack engine s = snd r)
  /\ (forall engine',
        index_in_bounds (track_list s) (current_track_index s) = true ->
        HandlePlayPause engine' (snd r)
        = snd (InitializeAndPlaySound engine' (current_track_index s) true (snd r)))
  /\ (i = next_track_index s ->
      forall k,
        current_track_index (run (repeat (Next engine) (S k)) s)
        = current_track_index s
        /\ track_list (run (repeat (Next engine) (S k)) s) = track_list s
        /\ status (run (repeat (Next engine) (S k)) s) = Stopped
        /\ next_track_index (run (repeat (Next engine) (S k)) s) = i).
Proof.
  intros He Hi Hko r. subst r.
  assert (Hrepeat : i = next_track_index s ->
            forall k,
              current_track_index (run (repeat (Next engine) (S k)) s)
              = current_track_index s
              /\ track_list (run (repeat (Next engine) (S k)) s) = track_list s
              /\ status (run (repeat (Next engine) (S k)) s) = Stopped
              /\ next_track_index (run (repeat (Next engine) (S k)) s) = i).
  { intros Hn k. subst i.
    destruct (repeat_Next_rejected engine k s He Hi Hko) as [H1 [H2 [H3 H4]]].
    unfold status, next_track_index. rewrite H1, H2, H3, H4. repeat split. }
  rewrite (InitializeAndPlaySound_rejected _ _ _ _ He Hi Hko).
  unfold status, bound. cbn [fst snd track_list current_track_index is_playing
                             sound_initialized].
  repeat split; try discriminate; try (now apply Hrepeat).
  - intros -> ->. unfold HandleNextTrack. rewrite He.
    rewrite (InitializeAndPlaySound_rejected _ _ _ _ He Hi Hko). reflexivity.
  - intros engine' Hin. now rewrite HandlePlayPause_loads.
Qed.

Lemma load_failure_stops_witness :
  empty (track_list playing_y) = false
  /\ 0 <= 2 < size_as_int (track_list playing_y)
  /\ reject_all (at_index (track_list playing_y) 2) = MA_ERROR
  /\ status (HandleNextTrack reject_all playing_y) = Stopped
  /\ track_list (HandleNextTrack reject_all playing_y) = three_tracks.
Proof.
  assert (H1 : empty (track_list playing_y) = false) by reflexivity.
  assert (H2 : 0 <= 2 < size_as_int (track_list playing_y))
    by (vm_compute; split; [discriminate | reflexivity]).
  assert (H3 : reject_all (at_index (track_list playing_y) 2) = MA_ERROR)
    by reflexivity.
  split; [exact H1 | split; [exact H2 | split; [exact H3 |]]].
  pose proof (load_failure_stops reject_all playing_y 2 true H1 H2 H3) as H.
  cbv zeta in H. destruct H as [_ [Hs [_ [Ht [_ [_ [Hn _]]]]]]].
  rewrite (Hn eq_refl eq_refl). split; [exact Hs | exact Ht].
Defined.

(** ** Refresh requests during a scan *)

(** C7. While a scan is in flight, a refresh request, from [main] or from
    the button, returns the session as it received it: no field changes, no
    engine call is made, no second scan is launched or remembered. *)
Theorem refresh_during_scan_is_noop (s : PlayerState) (is_initial_load : bool) :
  is_loading_music s = true ->
  TriggerLoadMusicFilesAsync is_initial_load s = s
  /\ apply_event RequestRefresh s = s
  /\ run [RequestRefresh; RequestRefresh] s = s.
Proof.
  intros H.
  assert (E : forall b, TriggerLoadMusicFilesAsync b s = s)
    by (intros b; unfold TriggerLoadMusicFilesAsync; now rewrite H).
  cbn [run apply_event]. rewrite !E. auto.
Qed.

Lemma refresh_during_scan_is_noop_witness :
  is_loading_music refresh_requested_while_paused = true
  /\ TriggerLoadMusicFilesAsync false refresh_requested_while_paused
     = refresh_requested_while_paused.
Proof.
  assert (H : is_loading_music refresh_requested_while_paused = true)
    by reflexivity.
  split; [exact H |].
  exact (proj1 (refresh_during_scan_is_noop refresh_requested_while_paused false H)).
Defined.

(** ** The scanner *)

(** [::tolower] sends a character to a character that is not an upper-case
    letter exactly when the two are the same letter. *)
Lemma tolower_same_letter c d :
  ~ (65 <= nat_of_ascii d <= 90)%nat ->
  tolower c = d <-> same_letter c d.
Proof.
  intros Hd. unfold tolower, same_letter. cbv zeta.
  pose proof (nat_ascii_bounded c) as Hc.
  destruct ((65 <=? nat_of_ascii c)%nat && (nat_of_ascii c <=? 90)%nat) eqn:Hu.
  - apply andb_true_iff in Hu as [H1 H2].
    apply Nat.leb_le in H1. apply Nat.leb_le in H2. split.
    + intros <-. right. left. split; [lia |].
      apply nat_ascii_embedding. lia.
    + intros [H | [[_ H] | [H _]]]; [lia | | lia].
      rewrite <- H. apply ascii_nat_embedding.
  - assert (Hn : ~ (65 <= nat_of_ascii c <= 90)%nat).
    { intros [H1 H2]. apply Nat.leb_le in H1. apply Nat.leb_le in H2.
      now rewrite H1, H2 in Hu. }
    split.
    + intros ->. now left.
    + intros [H | [[H _] | [H _]]]; [| lia | lia].
      rewrite <- (ascii_nat_embedding c), <- (ascii_nat_embedding d).
      now rewrite H.
Qed.

Lemma transform_tolower_eq_ignore_case a : forall b,
  no_upper_case b ->
  transform_tolower a = b <-> eq_ignore_case a b.
Proof.
  induction a as [|c a IH]; intros [|d b] Hb; simpl;
    try (split; [discriminate | contradiction]); [tauto |].
  destruct Hb as [Hd Hb]. split.
  - intros H. injection H as H1 H2. split.
    + now apply tolower_same_letter.
    + now apply IH.
  - intros [H1 H2]. f_equal.
    + now apply tolower_same_letter.
    + now apply IH.
Qed.

Lemma playable_extension_spec ext :
  playable_extension ext = true
  <-> eq_ignore_case ext ".mp3" \/ eq_ignore_case ext ".wav".
Proof.
  unfold playable_extension.
  rewrite orb_true_iff, !String.eqb_eq.
  rewrite (transform_tolower_eq_ignore_case ext ".mp3")
    by (cbn; repeat split; lia).
  rewrite (transform_tolower_eq_ignore_case ext ".wav")
    by (cbn; repeat split; lia).
  reflexivity.
Qed.

Example playable_extension_examples :
  playable_extension ".mp3" = true /\ playable_extension ".MP3" = true
  /\ playable_extension ".Wav" = true /\ playable_extension ".wAV" = true
  /\ playable_extension ".ogg" = false /\ playable_extension EmptyString = false
  /\ playable_extension "mp3" = false /\ playable_extension ".mp3 " = false.
Proof. repeat split. Qed.

(** The loop appends to [found_tracks] the selected entries met before the
    first error, and throws exactly when there is one. *)
Lemma for_each_entry_outcome it : forall found,
  for_each_entry it found
  = (found ++ map entry_path (filter entry_selected (before_first_error it)),
     if enumeration_throws it then FsThrow else FsOk tt).
Proof.
  induction it as [|step it IH]; intros found.
  - simpl. now rewrite app_nil_r.
  - destruct step as [e|]; [| simpl; now rewrite app_nil_r].
    cbn [for_each_entry before_first_error enumeration_throws].
    assert (Hsel : entry_selected e
                   = match entry_is_regular_file e with
                     | FsOk true => playable_extension (entry_extension e)
                     | _ => false
                     end) by reflexivity.
    unfold visit_entry. unfold Scan.bind, Scan.lift.
    destruct (entry_is_regular_file e) as [[|]|]; cbn [filter];
      rewrite ?Hsel.
    + destruct (playable_extension (entry_extension e));
        unfold Scan.push_back, Scan.ret; rewrite IH; cbn [map];
        now rewrite <- ?app_assoc.
    + unfold Scan.ret. now rewrite IH.
    + simpl. now rewrite app_nil_r.
Qed.

(** The worker in closed form. *)
Lemma ScanMusicDirectoryWorker_closed_form fs :
  ScanMusicDirectoryWorker fs
  = if exists_throws fs then FsThrow
    else FsOk (if creation_throws fs then []
               else match fs_directory_iterator fs with
                    | FsThrow => []
                    | FsOk it =>
                        map entry_path
                          (filter entry_selected (before_first_error it))
                    end).
Proof.
  assert (Hscan : forall found,
    scan_directory fs found
    = (found ++ match fs_directory_iterator fs with
                | FsThrow => []
                | FsOk it =>
                    map entry_path (filter entry_selected (before_first_error it))
                end, FsOk tt)).
  { intros found. unfold scan_directory.
    unfold Scan.try_catch, Scan.bind, Scan.lift, Scan.ret.
    destruct (fs_directory_iterator fs) as [it|]; [| now rewrite app_nil_r].
    rewrite for_each_entry_outcome.
    destruct (enumeration_throws it); reflexivity. }
  unfold ScanMusicDirectoryWorker, exists_throws, creation_throws,
    ensure_directory.
  destruct (fs_exists fs) as [[|]|];
    [| destruct (fs_create_directories fs) as [created|] |];
    cbv [Scan.bind Scan.lift Scan.ret Scan.try_catch negb];
    rewrite ?Hscan; reflexivity.
Qed.

Lemma before_first_error_none entries :
  (forall e, In e entries -> entry_is_regular_file e <> FsThrow) ->
  before_first_error (map FsOk entries) = entries.
Proof.
  induction entries as [|e entries IH]; intros H; simpl; [reflexivity |].
  destruct (entry_is_regular_file e) eqn:Hreg.
  - f_equal. apply IH. intros e' He'. apply H. now right.
  - exfalso. apply (H e); [now left | exact Hreg].
Qed.

(** The entries before the first error are an initial segment of the
    enumeration. *)
Lemma before_first_error_prefix it :
  exists rest, map FsOk (before_first_error it) ++ rest = it.
Proof.
  induction it as [|[e|] it [rest IH]]; simpl.
  - now exists [].
  - destruct (entry_is_regular_file e).
    + exists rest. simpl. now rewrite IH.
    + now exists (FsOk e :: it).
  - now exists (FsThrow :: it).
Qed.

(** C8.  The code breaks the claim where the existence test fails: the
    call of [exists] is outside both [try] blocks of the worker, so the
    worker lets a [filesystem_error] out exactly when that call throws,
    whatever the rest of the file system answers.  The error reaches the
    session at [get()], where it is caught: the catalog is left empty, the
    index 0 and nothing plays. *)
Theorem scan_raises_exactly_when_exists_throws (fs : filesystem) :
  (ScanMusicDirectoryWorker fs = FsThrow <-> fs_exists fs = FsThrow)
  /\ (fs_exists fs = FsThrow ->
      forall engine s,
        is_loading_music s = true ->
        music_load_future s = true ->
        let s' := ProcessAsyncMusicLoadCompletion engine
                    (Ready (ScanMusicDirectoryWorker fs)) s in
        track_list s' = [] /\ current_track_index s' = 0
        /\ is_playing s' = false).
Proof.
  assert (Hiff : ScanMusicDirectoryWorker fs = FsThrow <-> fs_exists fs = FsThrow).
  { rewrite ScanMusicDirectoryWorker_closed_form. unfold exists_throws.
    destruct (fs_exists fs); split; congruence. }
  split; [exact Hiff |].
  intros Hex engine s Hl Hf s'. subst s'.
  rewrite (proj2 Hiff Hex).
  unfold ProcessAsyncMusicLoadCompletion. rewrite Hl, Hf. cbn [andb].
  cbn [track_list playing_song_before_async_load was_playing_before_async_load
       set_is_playing set_current_track_index set_track_list
       set_music_load_future find_index].
  destruct (_ && _); repeat split.
Qed.

(** The directory is a symbolic link onto itself: [exists] fails with
    [ELOOP]. *)
Example scan_of_a_link_loop :
  ScanMusicDirectoryWorker (mk_filesystem FsThrow (FsOk false) FsThrow)
  = FsThrow.
Proof. reflexivity. Qed.

(** X20. When the existence test returns, the worker returns a list and
    lets no [filesystem_error] out.  If creating the missing directory
    throws, or opening the directory throws, the list is empty.  Otherwise
    it holds, in enumeration order, the paths of the entries met before the
    first error that are regular files with extension [.mp3] or [.wav] up
    to letter case; with an enumeration free of errors those are all such
    entries of the directory. *)
Theorem scan_selects_playable_regular_files (fs : filesystem)
    (dir_exists : bool) :
  fs_exists fs = FsOk dir_exists ->
  (exists found, ScanMusicDirectoryWorker fs = FsOk found)
  /\ ((dir_exists = false /\ fs_create_directories fs = FsThrow)
      \/ fs_directory_iterator fs = FsThrow ->
      ScanMusicDirectoryWorker fs = FsOk [])
  /\ (forall it,
        creation_throws fs = false ->
        fs_directory_iterator fs = FsOk it ->
        ScanMusicDirectoryWorker fs
        = FsOk (map entry_path (filter entry_selected (before_first_error it)))
        /\ exists rest, map FsOk (before_first_error it) ++ rest = it)
  /\ (forall entries,
        creation_throws fs = false ->
        fs_directory_iterator fs = FsOk (map FsOk entries) ->
        (forall e, In e entries -> entry_is_regular_file e <> FsThrow) ->
        ScanMusicDirectoryWorker fs
        = FsOk (map entry_path (filter entry_selected entries)))
  /\ (forall e,
        entry_selected e = true
        <-> entry_is_regular_file e = FsOk true
            /\ (eq_ignore_case (entry_extension e) ".mp3"
                \/ eq_ignore_case (entry_extension e) ".wav")).
Proof.
  intros Hex.
  rewrite ScanMusicDirectoryWorker_closed_form.
  unfold exists_throws. rewrite Hex.
  split; [eauto | split; [| split; [| split]]].
  - intros [[He Hc] | Hit].
    + unfold creation_throws. now rewrite Hex, He, Hc.
    + rewrite Hit. now destruct (creation_throws fs).
  - intros it Hc Hit. rewrite Hc, Hit. split; [reflexivity |].
    apply before_first_error_prefix.
  - intros entries Hc Hit Hreg. rewrite Hc, Hit.
    now rewrite before_first_error_none.
  - intros e. unfold entry_selected.
    destruct (entry_is_regular_file e) as [[|]|].
    + rewrite playable_extension_spec. tauto.
    + split; [discriminate | intros [H _]; discriminate].
    + split; [discriminate | intros [H _]; discriminate].
Qed.

Lemma scan_selects_playable_regular_files_witness :
  fs_exists
    (mk_filesystem (FsOk false) (FsOk true)
       (FsOk [FsOk (mk_entry "./music/A.MP3" ".MP3" (FsOk true));
              FsOk (mk_entry "./music/notes.txt" ".txt" (FsOk true))]))
  = FsOk false
  /\ exists found,
       ScanMusicDirectoryWorker
         (mk_filesystem (FsOk false) (FsOk true)
            (FsOk [FsOk (mk_entry "./music/A.MP3" ".MP3" (FsOk true));
                   FsOk (mk_entry "./music/notes.txt" ".txt" (FsOk true))]))
       = FsOk found.
Proof.
  split; [reflexivity |].
  exact (proj1 (scan_selects_playable_regular_files
                  (mk_filesystem (FsOk false) (FsOk true)
                     (FsOk [FsOk (mk_entry "./music/A.MP3" ".MP3" (FsOk true));
                            FsOk (mk_entry "./music/notes.txt" ".txt" (FsOk true))]))
                  false eq_refl)).
Defined.

(** A directory with a song in upper case, a sub-directory named like a
    song, a text file, and an entry that cannot be examined. *)
Example scan_example :
  ScanMusicDirectoryWorker
    (mk_filesystem (FsOk true) (FsOk false)
       (FsOk [FsOk (mk_entry "./music/A.MP3" ".MP3" (FsOk true));
              FsOk (mk_entry "./music/dir.wav" ".wav" (FsOk false));
              FsOk (mk_entry "./music/notes.txt" ".txt" (FsOk true));
              FsOk (mk_entry "./music/b.wav" ".wav" (FsOk true));
              FsOk (mk_entry "./music/c.mp3" ".mp3" FsThrow);
              FsOk (mk_entry "./music/d.mp3" ".mp3" (FsOk true))]))
  = FsOk ["./music/A.MP3"; "./music/b.wav"].
Proof. reflexivity. Qed.

(** ** Failed loads *)

(** The three ways through [InitializeAndPlaySound]. *)
Lemma InitializeAndPlaySound_cases engine i s :
  empty (track_list s) || (i <? 0) || (i >=? size_as_int (track_list s)) = true
  \/ (empty (track_list s) = false /\ 0 <= i < size_as_int (track_list s)
      /\ engine (at_index (track_list s) i) = MA_SUCCESS)
  \/ (empty (track_list s) = false /\ 0 <= i < size_as_int (track_list s)
      /\ engine (at_index (track_list s) i) = MA_ERROR).
Proof.
  destruct (empty (track_list s) || (i <? 0) || (i >=? size_as_int (track_list s)))
    eqn:Hg; [now left | right].
  apply orb_false_iff in Hg as [Hg H2]. apply orb_false_iff in Hg as [He H1].
  apply Z.ltb_ge in H1. rewrite Z.geb_leb in H2. apply Z.leb_gt in H2.
  destruct (engine (at_index (track_list s) i)); [left | right]; auto.
Qed.

(** A load that reports failure leaves the session as it found it, but for
    the sound, which is released, and the playing flag, which is down. *)
Lemma InitializeAndPlaySound_failed engine i start s :
  fst (InitializeAndPlaySound engine i start s) = false ->
  exists attempt,
    (attempt = []
     \/ attempt = [Call_sound_init_from_file (at_index (track_list s) i) MA_ERROR])
    /\ snd (InitializeAndPlaySound engine i start s)
       = {| sound := sound s;
            sound_initialized := false;
            track_list := track_list s;
            current_track_index := current_track_index s;
            is_playing := false;
            volume := volume s;
            music_load_future := music_load_future s;
            is_loading_music := is_loading_music s;
            was_playing_before_async_load := was_playing_before_async_load s;
            playing_song_before_async_load := playing_song_before_async_load s;
            track_ended_flag := track_ended_flag s;
            show_music_player_window := show_music_player_window s;
            ma_calls := ma_calls s ++ release_calls s ++ attempt |}.
Proof.
  intros Hf.
  destruct (InitializeAndPlaySound_cases engine i s) as [Hg | [[He [Hi Hok]] | [He [Hi Hko]]]].
  - exists []. split; [now left |].
    rewrite (InitializeAndPlaySound_invalid _ _ _ _ Hg), app_nil_r. reflexivity.
  - rewrite (InitializeAndPlaySound_accepted _ _ _ _ He Hi Hok) in Hf.
    discriminate.
  - eexists. split; [right; reflexivity |].
    rewrite (InitializeAndPlaySound_rejected _ _ _ _ He Hi Hko). reflexivity.
Qed.

(** C9. [InitializeAndPlaySound] releases the sound it holds before it
    looks at the index: whenever it reports failure (index refused, empty
    list, or file rejected by the engine) the sound held on entry has been
    released and none is bound, while the catalog and
    [current_track_index] have their values of before the call.  So a Next
    that fails is followed by a Next that computes the same index. *)
Theorem failed_load_releases_sound_keeps_index engine (s : PlayerState)
    (i : Z) (start : bool) :
  fst (InitializeAndPlaySound engine i start s) = false ->
  let s' := snd (InitializeAndPlaySound engine i start s) in
  ~ bound s'
  /\ status s' = Stopped
  /\ current_track_index s' = current_track_index s
  /\ track_list s' = track_list s
  /\ (exists attempt,
        ma_calls s' = ma_calls s ++ release_calls s ++ attempt
        /\ (attempt = []
            \/ attempt = [Call_sound_init_from_file
                            (at_index (track_list s) i) MA_ERROR]))
  /\ (bound s -> release_calls s = [Call_sound_uninit])
  /\ (track_list s <> [] -> i = next_track_index s -> start = is_playing s ->
      HandleNextTrack engine s = s'
      /\ next_track_index (HandleNextTrack engine s) = next_track_index s).
Proof.
  intros Hf s'.
  destruct (InitializeAndPlaySound_failed _ _ _ _ Hf) as [attempt [Hat Heq]].
  assert (Hnext : next_track_index s' = next_track_index s)
    by (subst s'; rewrite Heq; reflexivity).
  assert (Hcalls : ma_calls s' = ma_calls s ++ release_calls s ++ attempt)
    by (subst s'; rewrite Heq; reflexivity).
  subst s'. rewrite Heq in *. unfold bound, status, release_calls.
  cbn [sound_initialized is_playing current_track_index track_list].
  repeat split.
  - discriminate.
  - exists attempt. split; [exact Hcalls | exact Hat].
  - intros ->. reflexivity.
  - rewrite (HandleNextTrack_load _ _ H). subst i start. exact Heq.
  - rewrite (HandleNextTrack_load _ _ H). subst i start.
    rewrite Heq. exact Hnext.
Qed.

Lemma failed_load_releases_sound_keeps_index_witness :
  fst (InitializeAndPlaySound reject_all 2 true playing_y) = false
  /\ sound_initialized playing_y = true
  /\ sound_initialized (HandleNextTrack reject_all playing_y) = false
  /\ current_track_index (HandleNextTrack reject_all playing_y) = 1
  /\ next_track_index (HandleNextTrack reject_all playing_y) = 2.
Proof.
  assert (Hf : fst (InitializeAndPlaySound reject_all 2 true playing_y) = false)
    by reflexivity.
  split; [exact Hf | split; [reflexivity |]].
  pose proof (failed_load_releases_sound_keeps_index reject_all playing_y 2 true Hf)
    as H.
  cbv zeta in H. destruct H as [_ [_ [Hi [_ [_ [_ Hn]]]]]].
  assert (Hne : track_list playing_y <> []) by (vm_compute; discriminate).
  destruct (Hn Hne eq_refl eq_refl) as [Heq Hnext].
  rewrite Heq. split; [reflexivity | split; [exact Hi |]].
  rewrite <- Heq. exact Hnext.
Defined.

(** ** The first scan *)

Lemma main_startup_first_scan_running : first_scan_running main_startup.
Proof. repeat split. Qed.

(** With an empty catalog and a scan in flight a frame can only close the
    window. *)
Lemma RenderUI_scanning_empty engine ui s :
  is_loading_music s = true -> track_list s = [] ->
  RenderUI engine ui s
  = if show_music_player_window s && ui_close ui
    then set_show_music_player_window false s else s.
Proof.
  destruct s as [snd ini tl idx pl vol fut ld wp sg fl sh calls].
  cbn [is_loading_music track_list]. intros -> ->. unfold RenderUI.
  cbn [show_music_player_window].
  destruct sh, (ui_close ui), (ui_begin ui); cbn [negb andb];
    unfold_updates; rewrite ?andb_false_r; reflexivity.
Qed.

Lemma apply_event_first_scan_running e s :
  scan_pending e = true ->
  first_scan_running s -> first_scan_running (apply_event e s).
Proof.
  intros He (Hl & Hf & Htl & Hi & Hp & Hw & Hs).
  destruct e as [engine|engine|v| |engine poll|engine|engine ui| ];
    cbn [apply_event].
  - unfold HandlePlayPause. rewrite Htl. repeat split; assumption.
  - unfold HandleNextTrack. rewrite Htl. repeat split; assumption.
  - unfold HandleVolumeChange. cbn [sound_initialized set_volume]. rewrite Hi.
    repeat split; assumption.
  - unfold TriggerLoadMusicFilesAsync. rewrite Hl. repeat split; assumption.
  - destruct poll; [| discriminate].
    unfold ProcessAsyncMusicLoadCompletion. rewrite Hl, Hf.
    repeat split; assumption.
  - unfold ProcessAudioEvents. cbn [is_playing set_track_ended_flag].
    rewrite Hp. destruct (track_ended_flag s); repeat split; assumption.
  - rewrite (RenderUI_scanning_empty engine ui s Hl Htl).
    destruct (_ && _); repeat split; assumption.
  - repeat split; assumption.
Qed.

Lemma run_first_scan_running es : forall s,
  forallb scan_pending es = true ->
  first_scan_running s -> first_scan_running (run es s).
Proof.
  induction es as [|e es IH]; intros s Hes Hs; [exact Hs |].
  cbn [forallb] in Hes. apply andb_true_iff in Hes as [He Hes].
  cbn [run]. apply IH; [exact Hes |].
  now apply apply_event_first_scan_running.
Qed.

(** C10. [main] triggers the first scan with [is_initial_load] true, which
    captures neither a playing state nor a track.  Whatever happens while
    that scan is in flight, and whatever the scan delivers (a list, or an
    exception caught at [get()]), its completion leaves the session Stopped
    with current index 0 and no sound bound, on the delivered catalog. *)
Theorem first_scan_never_starts_playback engine (es : list event)
    (result : fs_result (list string)) :
  forallb scan_pending es = true ->
  let s := run es main_startup in
  let s' := ProcessAsyncMusicLoadCompletion engine (Ready result) s in
  was_playing_before_async_load s = false
  /\ playing_song_before_async_load s = EmptyString
  /\ status s' = Stopped
  /\ current_track_index s' = 0
  /\ ~ bound s'
  /\ track_list s' = match result with FsOk tracks => tracks | FsThrow => [] end
  /\ is_loading_music s' = false
  /\ ma_calls s' = ma_calls s.
Proof.
  intros Hes s s'.
  destruct (run_first_scan_running es _ Hes main_startup_first_scan_running)
    as (Hl & Hf & Htl & Hi & Hp & Hw & Hs).
  fold s in Hl, Hf, Htl, Hi, Hp, Hw, Hs.
  split; [exact Hw | split; [exact Hs |]].
  subst s'. unfold ProcessAsyncMusicLoadCompletion. rewrite Hl, Hf.
  cbn [andb]. clearbody s.
  destruct s as [snd ini tl idx pl vol fut ld wp sg fl sh calls].
  cbn [sound_initialized was_playing_before_async_load] in Hi, Hw.
  subst ini wp. unfold status, bound.
  destruct result as [tracks|]; unfold_updates; repeat split; discriminate.
Qed.

Lemma first_scan_never_starts_playback_witness :
  forallb scan_pending
    [TogglePlayPause accept_all; Next accept_all; TrackEnd;
     DrainAudioEvents accept_all; PollCompletion accept_all NotReady] = true
  /\ status
       (ProcessAsyncMusicLoadCompletion accept_all (Ready (FsOk three_tracks))
          (run [TogglePlayPause accept_all; Next accept_all; TrackEnd;
                DrainAudioEvents accept_all; PollCompletion accept_all NotReady]
             main_startup)) = Stopped.
Proof.
  assert (H : forallb scan_pending
                [TogglePlayPause accept_all; Next accept_all; TrackEnd;
                 DrainAudioEvents accept_all; PollCompletion accept_all NotReady]
              = true) by reflexivity.
  split; [exact H |].
  pose proof (first_scan_never_starts_playback accept_all _ (FsOk three_tracks) H)
    as Hthm.
  cbv zeta in Hthm. destruct Hthm as [_ [_ [Hst _]]]. exact Hst.
Defined.


(** * Further properties of the session *)

(** ** Invariants, one handler at a time *)

Section Preservation.

Variable P : PlayerState -> Prop.
Variable admitted : event -> bool.

Hypothesis P_close : forall s,
  P s -> P (set_show_music_player_window false s).
Hypothesis P_flag : forall s, P s -> P (set_track_ended_flag false s).
Hypothesis P_refresh : forall s, P s -> P (TriggerLoadMusicFilesAsync false s).
Hypothesis P_clamp : forall s,
  P s ->
  empty (track_list s) = false ->
  (current_track_index s <? 0)
  || (current_track_index s >=? size_as_int (track_list s)) = true ->
  P (UninitializeCurrentSound
       (if is_playing s
        then StopCurrentSound (set_current_track_index 0 s)
        else set_current_track_index 0 s)).
Hypothesis P_play_pause : forall engine s, P s -> P (HandlePlayPause engine s).
Hypothesis P_next : forall engine s, P s -> P (HandleNextTrack engine s).
Hypothesis P_volume : forall v s, P s -> P (HandleVolumeChange v s).
Hypothesis P_completion : forall engine poll s,
  admitted (PollCompletion engine poll) = true ->
  P s -> P (ProcessAsyncMusicLoadCompletion engine poll s).
Hypothesis P_track_end : forall s, P s -> P (engine_sound_at_end s).

(** It is enough that the property holds once the close box has been
    taken into account. *)
Lemma RenderUI_preserves_from_close engine ui s :
  (show_music_player_window s = false -> P s) ->
  P (if ui_close ui then set_show_music_player_window false s else s) ->
  P (RenderUI engine ui s).
Proof.
  intros Hclosed H1. unfold RenderUI.
  destruct (show_music_player_window s); cbn [negb]; auto.
  set (s1 := if ui_close ui then _ else s) in *.
  clearbody s1. destruct (ui_begin ui); auto.
  set (s2 := if ui_refresh ui && _ then _ else s1).
  assert (H2 : P s2) by (subst s2; destruct (_ && _); auto).
  clearbody s2. destruct (empty (track_list s2)) eqn:He; cbn [negb]; auto.
  set (s3 := if _ || _ then _ else s2).
  assert (H3 : P s3).
  { subst s3. destruct (_ || _) eqn:Hout; auto.
    change (is_playing (set_current_track_index 0 s2)) with (is_playing s2).
    now apply P_clamp. }
  clearbody s3. destruct (index_in_bounds _ _); auto.
  set (s4 := if ui_play_pause ui then _ else s3).
  assert (H4 : P s4) by (subst s4; destruct (ui_play_pause ui); auto).
  clearbody s4.
  set (s5 := if ui_next ui then _ else s4).
  assert (H5 : P s5) by (subst s5; destruct (ui_next ui); auto).
  clearbody s5. destruct (ui_volume ui); auto.
Qed.

Lemma RenderUI_preserves engine ui s : P s -> P (RenderUI engine ui s).
Proof.
  intros H. apply RenderUI_preserves_from_close; [auto |].
  destruct (ui_close ui); auto.
Qed.

Lemma ProcessAudioEvents_preserves engine s :
  P s -> P (ProcessAudioEvents engine s).
Proof.
  intros H. unfold ProcessAudioEvents.
  destruct (track_ended_flag s); auto.
  destruct (is_playing _); auto.
Qed.

Lemma apply_event_preserves e s :
  admitted e = true -> P s -> P (apply_event e s).
Proof.
  intros Ha H. destruct e; cbn [apply_event]; auto.
  - now apply ProcessAudioEvents_preserves.
  - now apply RenderUI_preserves.
Qed.

Lemma run_preserves es : forall s,
  forallb admitted es = true -> P s -> P (run es s).
Proof.
  induction es as [|e es IH]; intros s Hes H; [exact H |].
  cbn [forallb] in Hes. apply andb_true_iff in Hes as [He Hes].
  cbn [run]. apply IH; [exact Hes |]. now apply apply_event_preserves.
Qed.

End Preservation.

(** ** The engine is used as it asks to be *)

Lemma engine_protocol_app calls1 : forall alive calls2,
  engine_protocol alive (calls1 ++ calls2)
  = match engine_protocol alive calls1 with
    | Some alive' => engine_protocol alive' calls2
    | None => None
    end.
Proof.
  induction calls1 as [|c calls1 IH]; intros alive calls2; [reflexivity |].
  destruct c as [ | |path [|]|v| | ], alive; cbn [app engine_protocol];
    auto.
Qed.

(** Close a goal on the trace of an updated record. *)
Ltac protocol_step H :=
  unfold protocol_respected in *; unfold_updates;
  rewrite ?engine_protocol_app, ?H; cbn [engine_protocol];
  try reflexivity; try assumption.

Lemma InitializeAndPlaySound_protocol engine i start s :
  protocol_respected s ->
  protocol_respected (snd (InitializeAndPlaySound engine i start s)).
Proof.
  intros H.
  destruct (InitializeAndPlaySound_cases engine i s)
    as [Hg | [[He [Hi Hok]] | [He [Hi Hko]]]].
  - rewrite (InitializeAndPlaySound_invalid _ _ _ _ Hg).
    unfold release_calls. destruct s as [snd [|]]; protocol_step H.
  - rewrite (InitializeAndPlaySound_accepted _ _ _ _ He Hi Hok).
    unfold release_calls. destruct s as [snd [|]], start; protocol_step H.
  - rewrite (InitializeAndPlaySound_rejected _ _ _ _ He Hi Hko).
    unfold release_calls. destruct s as [snd [|]]; protocol_step H.
Qed.

Lemma UninitializeCurrentSound_protocol s :
  protocol_respected s -> protocol_respected (UninitializeCurrentSound s).
Proof.
  intros H. unfold UninitializeCurrentSound.
  destruct s as [snd [|]]; protocol_step H.
Qed.

Lemma StopCurrentSound_protocol s :
  protocol_respected s -> protocol_respected (StopCurrentSound s).
Proof.
  intros H. unfold StopCurrentSound.
  destruct s as [snd [|]]; protocol_step H.
Qed.

Lemma HandlePlayPause_protocol engine s :
  protocol_respected s -> protocol_respected (HandlePlayPause engine s).
Proof.
  intros H. unfold HandlePlayPause.
  destruct (empty (track_list s)); auto.
  destruct (_ || _); auto.
  destruct (is_playing s).
  - destruct s as [snd [|]]; protocol_step H.
  - destruct (sound_initialized s && negb (ma_sound_is_playing s)) eqn:Hb.
    + apply andb_true_iff in Hb as [Hi _].
      destruct s as [snd ini]. cbn [sound_initialized] in Hi. subst ini.
      protocol_step H.
    + now apply InitializeAndPlaySound_protocol.
Qed.

Lemma HandleNextTrack_protocol engine s :
  protocol_respected s -> protocol_respected (HandleNextTrack engine s).
Proof.
  intros H. unfold HandleNextTrack. destruct (empty (track_list s)); auto.
  now apply InitializeAndPlaySound_protocol.
Qed.

Lemma HandleVolumeChange_protocol v s :
  protocol_respected s -> protocol_respected (HandleVolumeChange v s).
Proof.
  intros H. unfold HandleVolumeChange.
  destruct s as [snd [|]]; protocol_step H.
Qed.

Lemma TriggerLoadMusicFilesAsync_protocol initial s :
  protocol_respected s ->
  protocol_respected (TriggerLoadMusicFilesAsync initial s).
Proof.
  intros H. unfold TriggerLoadMusicFilesAsync.
  destruct (is_loading_music s); auto.
  destruct initial; cbn [negb]; [exact H |].
  destruct (negb (empty _) && _); destruct s as [snd [|]]; protocol_step H.
Qed.

Lemma ProcessAsyncMusicLoadCompletion_protocol engine poll s :
  protocol_respected s ->
  protocol_respected (ProcessAsyncMusicLoadCompletion engine poll s).
Proof.
  intros H. unfold ProcessAsyncMusicLoadCompletion.
  destruct (is_loading_music s && music_load_future s); auto.
  destruct poll as [|result]; auto.
  match goal with
  | |- protocol_respected
         (set_is_loading_music _ (set_playing_song_before_async_load _
            (set_was_playing_before_async_load _ ?x))) =>
      assert (Hx : protocol_respected x); [| exact Hx]
  end.
  assert (H0 : forall tracks,
             protocol_respected
               (set_is_playing false
                  (set_current_track_index 0
                     (set_track_list tracks (set_music_load_future false s)))))
    by (intros tracks; exact H).
  destruct result as [tracks|];
    match goal with
    | |- protocol_respected (if ?b then _ else _) => destruct b
    end; auto;
    match goal with
    | |- protocol_respected (match ?o with Some _ => _ | None => _ end) =>
        destruct o
    end; auto; now apply InitializeAndPlaySound_protocol.
Qed.

Lemma apply_event_protocol e s :
  protocol_respected s -> protocol_respected (apply_event e s).
Proof.
  apply (apply_event_preserves protocol_respected (fun _ => true)); auto.
  - intros t Ht. now apply TriggerLoadMusicFilesAsync_protocol.
  - intros t Ht _ _. apply UninitializeCurrentSound_protocol.
    destruct (is_playing t); [apply StopCurrentSound_protocol |]; exact Ht.
  - intros engine t. apply HandlePlayPause_protocol.
  - intros engine t. apply HandleNextTrack_protocol.
  - intros v t. apply HandleVolumeChange_protocol.
  - intros engine poll t _. apply ProcessAsyncMusicLoadCompletion_protocol.
Qed.

Lemma run_protocol es : forall s,
  protocol_respected s -> protocol_respected (run es s).
Proof.
  induction es as [|e es IH]; intros s H; [exact H |].
  cbn [run]. apply IH. now apply apply_event_protocol.
Qed.

(** X5. Through any sequence of operations from start-up, the calls the
    player makes on the engine keep to its discipline: a sound is used
    (started, stopped, given a volume or a callback) or released only while
    initialised, is never initialised over a live one, and
    [sound_initialized] tells at every moment whether one is live. *)
Theorem engine_calls_keep_discipline (es : list event) :
  engine_protocol false (ma_calls (run es main_startup))
  = Some (sound_initialized (run es main_startup)).
Proof.
  apply (run_protocol es main_startup). reflexivity.
Qed.

(** X6. [Cleanup] after any run leaves no sound live: every sound the
    engine initialised has been released, once.  On a session that never
    loaded a sound, as on the early exits of [main], it makes no call. *)
Theorem cleanup_releases_the_sound (es : list event) :
  engine_protocol false (ma_calls (Cleanup (run es main_startup))) = Some false
  /\ sound_initialized (Cleanup (run es main_startup)) = false
  /\ Cleanup initial_PlayerState = initial_PlayerState.
Proof.
  pose proof (UninitializeCurrentSound_protocol _ (run_protocol es main_startup eq_refl))
    as H.
  unfold protocol_respected in H. unfold Cleanup.
  rewrite UninitializeCurrentSound_unbound in *. auto.
Qed.

(** ** What a load leaves alone *)

Lemma InitializeAndPlaySound_frame engine i start s :
  let s' := snd (InitializeAndPlaySound engine i start s) in
  track_list s' = track_list s
  /\ volume s' = volume s
  /\ music_load_future s' = music_load_future s
  /\ is_loading_music s' = is_loading_music s
  /\ was_playing_before_async_load s' = was_playing_before_async_load s
  /\ playing_song_before_async_load s' = playing_song_before_async_load s
  /\ track_ended_flag s' = track_ended_flag s
  /\ show_music_player_window s' = show_music_player_window s.
Proof.
  destruct (InitializeAndPlaySound_cases engine i s)
    as [Hg | [[He [Hi Hok]] | [He [Hi Hko]]]].
  - rewrite (InitializeAndPlaySound_invalid _ _ _ _ Hg). repeat split.
  - rewrite (InitializeAndPlaySound_accepted _ _ _ _ He Hi Hok). repeat split.
  - rewrite (InitializeAndPlaySound_rejected _ _ _ _ He Hi Hko). repeat split.
Qed.

(** ** The completion of a scan is applied once *)

(** X9. When the scan result is ready, [ProcessAsyncMusicLoadCompletion]
    consumes it: the loading flag is down, the future is no longer valid
    and the captured playing state and song are cleared, whatever the
    result and whether or not playback was resumed.  Any later poll, with
    whatever the future might report, changes nothing; so does a poll on a
    session that is not loading, and a poll that finds the scan unfinished. *)
Theorem scan_result_applied_once engine (s : PlayerState)
    (result : fs_result (list string)) :
  is_loading_music s = true ->
  music_load_future s = true ->
  let s' := ProcessAsyncMusicLoadCompletion engine (Ready result) s in
  is_loading_music s' = false
  /\ music_load_future s' = false
  /\ was_playing_before_async_load s' = false
  /\ playing_song_before_async_load s' = EmptyString
  /\ (forall engine' poll',
        ProcessAsyncMusicLoadCompletion engine' poll' s' = s')
  /\ (forall engine', ProcessAsyncMusicLoadCompletion engine' NotReady s = s)
  /\ (forall engine' poll' t,
        is_loading_music t = false ->
        ProcessAsyncMusicLoadCompletion engine' poll' t = t).
Proof.
  intros Hl Hf s'.
  assert (Hidle : forall engine' poll' t,
             is_loading_music t = false ->
             ProcessAsyncMusicLoadCompletion engine' poll' t = t).
  { intros engine' poll' t Ht. unfold ProcessAsyncMusicLoadCompletion.
    now rewrite Ht. }
  assert (Hs' : is_loading_music s' = false /\ music_load_future s' = false
                /\ was_playing_before_async_load s' = false
                /\ playing_song_before_async_load s' = EmptyString).
  { subst s'. unfold ProcessAsyncMusicLoadCompletion. rewrite Hl, Hf.
    cbn [andb].
    cbn [is_loading_music music_load_future was_playing_before_async_load
         playing_song_before_async_load set_is_loading_music
         set_playing_song_before_async_load set_was_playing_before_async_load].
    repeat split.
    match goal with
    | |- music_load_future (if ?b then _ else _) = false => destruct b
    end;
    [match goal with
     | |- music_load_future (match ?o with Some _ => _ | None => _ end) = false =>
         destruct o
     end |]; try (destruct result; reflexivity).
    match goal with
    | |- music_load_future (snd (InitializeAndPlaySound ?e ?i ?b ?t)) = false =>
        destruct (InitializeAndPlaySound_frame e i b t) as [_ [_ [H _]]];
        rewrite H
    end.
    destruct result; reflexivity. }
  destruct Hs' as [H1 [H2 [H3 H4]]].
  repeat split; auto.
  intros engine'. unfold ProcessAsyncMusicLoadCompletion.
  now destruct (is_loading_music s && music_load_future s).
Qed.

Lemma scan_result_applied_once_witness :
  is_loading_music refresh_requested_while_paused = true
  /\ music_load_future refresh_requested_while_paused = true
  /\ ProcessAsyncMusicLoadCompletion reject_all (Ready (FsOk two_tracks))
       refreshed_after_pause
     = refreshed_after_pause.
Proof.
  assert (H1 : is_loading_music refresh_requested_while_paused = true)
    by reflexivity.
  assert (H2 : music_load_future refresh_requested_while_paused = true)
    by reflexivity.
  split; [exact H1 | split; [exact H2 |]].
  pose proof (scan_result_applied_once accept_all refresh_requested_while_paused
                (FsOk three_tracks) H1 H2) as H.
  cbv zeta in H. destruct H as [_ [_ [_ [_ [H _]]]]].
  exact (H reject_all (Ready (FsOk two_tracks))).
Defined.

(** ** A refresh request that is not ignored *)

(** X10. On a session that is not loading, a refresh request from the
    button stops and releases the sound it holds (in that order) and leaves
    the session Stopped and loading, with the catalog, the current index
    and the volume untouched; it records whether the session was playing
    and the path of the current track, or the empty string when the index
    designates none.  The request of [main], with [is_initial_load], only
    raises the loading flag and launches the scan. *)
Theorem refresh_request_releases_and_captures (s : PlayerState) :
  is_loading_music s = false ->
  let s' := TriggerLoadMusicFilesAsync false s in
  status s' = Stopped
  /\ is_loading_music s' = true
  /\ music_load_future s' = true
  /\ track_list s' = track_list s
  /\ current_track_index s' = current_track_index s
  /\ volume s' = volume s
  /\ was_playing_before_async_load s' = is_playing s
  /\ playing_song_before_async_load s'
     = (if negb (empty (track_list s))
           && index_in_bounds (track_list s) (current_track_index s)
        then at_index (track_list s) (current_track_index s)
        else EmptyString)
  /\ ma_calls s'
     = ma_calls s
       ++ (if sound_initialized s
           then [Call_sound_stop; Call_sound_uninit] else [])
  /\ TriggerLoadMusicFilesAsync true s
     = s |> set_is_loading_music true |> set_music_load_future true.
Proof.
  intros Hl s'. subst s'. rewrite (TriggerLoadMusicFilesAsync_refresh s Hl).
  unfold status. cbn [is_playing sound_initialized]. repeat split.
  unfold TriggerLoadMusicFilesAsync. now rewrite Hl.
Qed.

Lemma refresh_request_releases_and_captures_witness :
  is_loading_music playing_y = false
  /\ status (TriggerLoadMusicFilesAsync false playing_y) = Stopped
  /\ was_playing_before_async_load (TriggerLoadMusicFilesAsync false playing_y)
     = true.
Proof.
  assert (H1 : is_loading_music playing_y = false) by reflexivity.
  split; [exact H1 |].
  pose proof (refresh_request_releases_and_captures playing_y H1) as H.
  cbv zeta in H. destruct H as [Hs [_ [_ [_ [_ [_ [Hw _]]]]]]].
  split; [exact Hs | exact Hw].
Defined.

(** ** The current index always designates a track *)

Lemma index_designates_track_ext s s' :
  track_list s' = track_list s ->
  current_track_index s' = current_track_index s ->
  (is_playing s' = true -> is_playing s = true) ->
  index_designates_track s -> index_designates_track s'.
Proof.
  unfold index_designates_track. intros -> -> Hp.
  destruct (track_list s); [| auto].
  intros [Hi Hf]. split; [exact Hi |].
  destruct (is_playing s'); [| reflexivity]. rewrite <- Hf. symmetry.
  now apply Hp.
Qed.

Lemma index_designates_track_nonempty s :
  empty (track_list s) = false ->
  index_designates_track s
  <-> index_in_bounds (track_list s) (current_track_index s) = true.
Proof.
  unfold index_designates_track. destruct (track_list s);
    [discriminate | tauto].
Qed.

Lemma InitializeAndPlaySound_index engine i start s :
  index_designates_track s ->
  index_designates_track (snd (InitializeAndPlaySound engine i start s)).
Proof.
  intros H.
  destruct (InitializeAndPlaySound_cases engine i s)
    as [Hg | [[He [Hi Hok]] | [He [Hi Hko]]]].
  - rewrite (InitializeAndPlaySound_invalid _ _ _ _ Hg).
    revert H. apply index_designates_track_ext; auto; discriminate.
  - rewrite (InitializeAndPlaySound_accepted _ _ _ _ He Hi Hok).
    apply index_designates_track_nonempty; [exact He |].
    unfold index_in_bounds. cbn [track_list current_track_index fst snd].
    apply andb_true_iff. split; [apply Z.leb_le | apply Z.ltb_lt]; lia.
  - rewrite (InitializeAndPlaySound_rejected _ _ _ _ He Hi Hko).
    revert H. apply index_designates_track_ext; auto; discriminate.
Qed.

Lemma HandlePlayPause_index engine s :
  index_designates_track s -> index_designates_track (HandlePlayPause engine s).
Proof.
  intros H. unfold HandlePlayPause.
  destruct (empty (track_list s)) eqn:He; auto.
  destruct (_ || _); auto.
  destruct (is_playing s).
  - revert H. apply index_designates_track_ext;
      destruct (sound_initialized s); auto; discriminate.
  - destruct (sound_initialized s && negb (ma_sound_is_playing s)).
    + apply index_designates_track_nonempty; [exact He |].
      now apply index_designates_track_nonempty in H.
    + now apply InitializeAndPlaySound_index.
Qed.

Lemma HandleNextTrack_index engine s :
  index_designates_track s -> index_designates_track (HandleNextTrack engine s).
Proof.
  intros H. unfold HandleNextTrack. destruct (empty (track_list s)); auto.
  now apply InitializeAndPlaySound_index.
Qed.

Lemma TriggerLoadMusicFilesAsync_index initial s :
  index_designates_track s ->
  index_designates_track (TriggerLoadMusicFilesAsync initial s).
Proof.
  destruct (is_loading_music s) eqn:Hl;
    [unfold TriggerLoadMusicFilesAsync; rewrite Hl; auto |].
  destruct initial.
  - unfold TriggerLoadMusicFilesAsync. rewrite Hl.
    apply index_designates_track_ext; try reflexivity. intros H; exact H.
  - rewrite (TriggerLoadMusicFilesAsync_refresh s Hl).
    apply index_designates_track_ext; try reflexivity. discriminate.
Qed.

Lemma catalog_replaced_index s tracks :
  Z.of_nat (List.length tracks) <= Int.INT_MAX ->
  index_designates_track (catalog_replaced s tracks).
Proof.
  intros Hfit. unfold index_designates_track.
  change (track_list (catalog_replaced s tracks)) with tracks.
  change (current_track_index (catalog_replaced s tracks)) with 0.
  destruct tracks as [|x rest]; [split; reflexivity |].
  unfold index_in_bounds. rewrite size_as_int_fits by exact Hfit.
  apply andb_true_iff. split; [reflexivity |].
  apply Z.ltb_lt. cbn [List.length]. lia.
Qed.

Lemma ProcessAsyncMusicLoadCompletion_index engine poll s :
  delivers_int_length (PollCompletion engine poll) = true ->
  index_designates_track s ->
  index_designates_track (ProcessAsyncMusicLoadCompletion engine poll s).
Proof.
  intros Hfit H. unfold ProcessAsyncMusicLoadCompletion.
  destruct (is_loading_music s && music_load_future s); auto.
  destruct poll as [|result]; auto.
  assert (Hrep :
    index_designates_track
      (set_is_playing false
         (set_current_track_index 0
            (match result with
             | FsOk tracks => set_track_list tracks (set_music_load_future false s)
             | FsThrow => set_track_list [] (set_music_load_future false s)
             end)))).
  { destruct result as [tracks|].
    - apply (catalog_replaced_index s tracks).
      cbn [delivers_int_length] in Hfit. now apply Z.leb_le.
    - apply (catalog_replaced_index s []). discriminate. }
  match goal with
  | |- index_designates_track
         (set_is_loading_music _ (set_playing_song_before_async_load _
            (set_was_playing_before_async_load _ ?x))) =>
      assert (Hx : index_designates_track x);
      [| revert Hx; apply index_designates_track_ext; auto]
  end.
  match goal with
  | |- index_designates_track (if ?b then _ else _) => destruct b
  end; [| exact Hrep].
  match goal with
  | |- index_designates_track (match ?o with Some _ => _ | None => _ end) =>
      destruct o
  end; [| exact Hrep].
  now apply InitializeAndPlaySound_index.
Qed.

Lemma apply_event_index e s :
  delivers_int_length e = true ->
  index_designates_track s -> index_designates_track (apply_event e s).
Proof.
  apply (apply_event_preserves index_designates_track delivers_int_length).
  - intros t. now apply index_designates_track_ext.
  - intros t. now apply index_designates_track_ext.
  - intros t. apply TriggerLoadMusicFilesAsync_index.
  - intros t Ht He Hout. exfalso.
    apply (index_designates_track_nonempty _ He) in Ht.
    unfold index_in_bounds in Ht. apply andb_true_iff in Ht as [H0 H1].
    apply Z.leb_le in H0. apply Z.ltb_lt in H1.
    rewrite Z.geb_leb in Hout. apply orb_true_iff in Hout as [Hout | Hout];
      [apply Z.ltb_lt in Hout | apply Z.leb_le in Hout]; lia.
  - intros engine t. apply HandlePlayPause_index.
  - intros engine t. apply HandleNextTrack_index.
  - intros v t. apply index_designates_track_ext;
      unfold HandleVolumeChange; cbn [sound_initialized set_volume];
      destruct (sound_initialized t); auto.
  - intros engine poll t. apply ProcessAsyncMusicLoadCompletion_index.
  - intros t. now apply index_designates_track_ext.
Qed.

Lemma run_index es : forall s,
  forallb delivers_int_length es = true ->
  index_designates_track s -> index_designates_track (run es s).
Proof.
  induction es as [|e es IH]; intros s Hes H; [exact H |].
  cbn [forallb] in Hes. apply andb_true_iff in Hes as [He Hes].
  cbn [run]. apply IH; [exact Hes |]. now apply apply_event_index.
Qed.

(** X7. As long as every scan result has a length that is an [int] value,
    the session reached from start-up by any sequence of operations has its
    current index inside the catalog, and with an empty catalog the index
    is 0 and nothing plays.  So the test of [RenderUI] that resets an index
    out of bounds never succeeds. *)
Theorem current_index_designates_track (es : list event) :
  forallb delivers_int_length es = true ->
  let s := run es main_startup in
  index_designates_track s
  /\ (track_list s = [] -> current_track_index s = 0 /\ status s <> Playing)
  /\ (track_list s <> [] ->
      0 <= current_track_index s < size_as_int (track_list s)
      /\ (current_track_index s <? 0)
         || (current_track_index s >=? size_as_int (track_list s)) = false).
Proof.
  intros Hes s.
  assert (H : index_designates_track s).
  { apply run_index; [exact Hes | split; reflexivity]. }
  split; [exact H | split].
  - intros He. unfold index_designates_track in H. rewrite He in H.
    destruct H as [Hi Hp]. split; [exact Hi |].
    unfold status. rewrite Hp. destruct (sound_initialized s); discriminate.
  - intros Hne. apply nonempty_empty_false in Hne.
    apply (index_designates_track_nonempty _ Hne) in H.
    unfold index_in_bounds in H. apply andb_true_iff in H as [H0 H1].
    apply Z.leb_le in H0. apply Z.ltb_lt in H1.
    split; [lia |]. rewrite Z.geb_leb. apply orb_false_iff.
    split; [apply Z.ltb_ge | apply Z.leb_gt]; lia.
Qed.

Lemma current_index_designates_track_witness :
  forallb delivers_int_length
    [PollCompletion accept_all (Ready (FsOk three_tracks));
     Next accept_all; Next reject_all; RequestRefresh;
     PollCompletion accept_all (Ready (FsOk two_tracks))] = true
  /\ index_designates_track
       (run [PollCompletion accept_all (Ready (FsOk three_tracks));
             Next accept_all; Next reject_all; RequestRefresh;
             PollCompletion accept_all (Ready (FsOk two_tracks))]
          main_startup).
Proof.
  assert (H : forallb delivers_int_length
                [PollCompletion accept_all (Ready (FsOk three_tracks));
                 Next accept_all; Next reject_all; RequestRefresh;
                 PollCompletion accept_all (Ready (FsOk two_tracks))] = true)
    by reflexivity.
  split; [exact H |].
  exact (proj1 (current_index_designates_track _ H)).
Defined.

(** ** The player window, once closed *)

Lemma UninitializeCurrentSound_show s :
  show_music_player_window (UninitializeCurrentSound s)
  = show_music_player_window s.
Proof.
  unfold UninitializeCurrentSound. now destruct (sound_initialized s).
Qed.

Lemma StopCurrentSound_show s :
  show_music_player_window (StopCurrentSound s) = show_music_player_window s.
Proof.
  unfold StopCurrentSound. now destruct (sound_initialized s).
Qed.

Lemma InitializeAndPlaySound_show engine i start s :
  show_music_player_window (snd (InitializeAndPlaySound engine i start s))
  = show_music_player_window s.
Proof. apply InitializeAndPlaySound_frame. Qed.

Lemma HandlePlayPause_show engine s :
  show_music_player_window (HandlePlayPause engine s)
  = show_music_player_window s.
Proof.
  unfold HandlePlayPause.
  destruct (empty _); auto. destruct (_ || _); auto.
  destruct (is_playing s); [now destruct (sound_initialized s) |].
  destruct (_ && _); [reflexivity | apply InitializeAndPlaySound_show].
Qed.

Lemma HandleNextTrack_show engine s :
  show_music_player_window (HandleNextTrack engine s)
  = show_music_player_window s.
Proof.
  unfold HandleNextTrack. destruct (empty _); auto.
  apply InitializeAndPlaySound_show.
Qed.

Lemma HandleVolumeChange_show v s :
  show_music_player_window (HandleVolumeChange v s)
  = show_music_player_window s.
Proof.
  unfold HandleVolumeChange. cbn [sound_initialized set_volume].
  now destruct (sound_initialized s).
Qed.

Lemma TriggerLoadMusicFilesAsync_show initial s :
  show_music_player_window (TriggerLoadMusicFilesAsync initial s)
  = show_music_player_window s.
Proof.
  destruct (is_loading_music s) eqn:Hl;
    [unfold TriggerLoadMusicFilesAsync; now rewrite Hl |].
  destruct initial.
  - unfold TriggerLoadMusicFilesAsync. now rewrite Hl.
  - now rewrite (TriggerLoadMusicFilesAsync_refresh s Hl).
Qed.

Lemma ProcessAsyncMusicLoadCompletion_show engine poll s :
  show_music_player_window (ProcessAsyncMusicLoadCompletion engine poll s)
  = show_music_player_window s.
Proof.
  unfold ProcessAsyncMusicLoadCompletion.
  destruct (_ && _); auto. destruct poll as [|result]; auto.
  cbn [show_music_player_window set_is_loading_music
       set_playing_song_before_async_load set_was_playing_before_async_load].
  match goal with
  | |- show_music_player_window (if ?b then _ else _) = _ => destruct b
  end;
  [match goal with
   | |- show_music_player_window (match ?o with Some _ => _ | None => _ end) = _ =>
       destruct o
   end |];
  rewrite ?InitializeAndPlaySound_show; now destruct result.
Qed.

Lemma apply_event_stays_closed e s :
  show_music_player_window s = false ->
  show_music_player_window (apply_event e s) = false.
Proof.
  apply (apply_event_preserves
           (fun t => show_music_player_window t = false) (fun _ => true));
    auto.
  - intros t Ht. now rewrite TriggerLoadMusicFilesAsync_show.
  - intros t Ht _ _. rewrite UninitializeCurrentSound_show.
    destruct (is_playing t); [rewrite StopCurrentSound_show |]; exact Ht.
  - intros engine t Ht. now rewrite HandlePlayPause_show.
  - intros engine t Ht. now rewrite HandleNextTrack_show.
  - intros v t Ht. now rewrite HandleVolumeChange_show.
  - intros engine poll t _ Ht. now rewrite ProcessAsyncMusicLoadCompletion_show.
Qed.

(** X8. Once [show_music_player_window] is false, no operation raises it
    again, so the loop of [main] ends at its next test; a frame in that
    state draws nothing and applies no command, whatever ImGui reports.  A
    frame in which the close box is used leaves the flag false, whatever
    else is pressed in that frame. *)
Theorem closed_window_stays_closed engine ui (es : list event)
    (s : PlayerState) :
  (show_music_player_window s = false ->
   show_music_player_window (run es s) = false
   /\ RenderUI engine ui s = s)
  /\ (ui_close ui = true ->
      show_music_player_window (RenderUI engine ui s) = false).
Proof.
  split.
  - intros H. split.
    + revert s H. induction es as [|e es IH]; intros s H; [exact H |].
      cbn [run]. apply IH. now apply apply_event_stays_closed.
    + unfold RenderUI. now rewrite H.
  - intros Hc.
    apply (RenderUI_preserves_from_close
             (fun t => show_music_player_window t = false)); auto.
    + intros t Ht. now rewrite TriggerLoadMusicFilesAsync_show.
    + intros t Ht _ _. rewrite UninitializeCurrentSound_show.
      destruct (is_playing t); [rewrite StopCurrentSound_show |]; exact Ht.
    + intros e t Ht. now rewrite HandlePlayPause_show.
    + intros e t Ht. now rewrite HandleNextTrack_show.
    + intros v t Ht. now rewrite HandleVolumeChange_show.
    + now rewrite Hc.
Qed.

(** ** Play and pause *)

Lemma in_bounds_passes_guards l i :
  index_in_bounds l i = true ->
  empty l = false /\ (i <? 0) || (i >=? size_as_int l) = false.
Proof.
  unfold index_in_bounds. intros H. apply andb_true_iff in H as [H0 H1].
  apply Z.leb_le in H0. apply Z.ltb_lt in H1. split.
  - destruct l; [| reflexivity]. change (size_as_int []) with 0 in H1. lia.
  - rewrite Z.geb_leb. apply orb_false_iff.
    split; [apply Z.ltb_ge | apply Z.leb_gt]; lia.
Qed.

(** X1. On a session that plays a bound sound, Play/Pause stops the sound
    and keeps it; a second Play/Pause starts the same sound again.  Through
    both, the engine is asked for no file (whatever it would answer), the
    sound keeps its file and volume and the index does not move: the only
    calls are a stop and a start.  If the sound was running before, the
    session is back where it was, trace apart. *)
Theorem pause_then_play_resumes_in_place engine1 engine2 (s : PlayerState) :
  index_in_bounds (track_list s) (current_track_index s) = true ->
  is_playing s = true ->
  sound_initialized s = true ->
  let paused := HandlePlayPause engine1 s in
  let resumed := HandlePlayPause engine2 paused in
  status paused = Paused
  /\ snd_started (sound paused) = false
  /\ ma_calls paused = ma_calls s ++ [Call_sound_stop]
  /\ status resumed = Playing
  /\ snd_started (sound resumed) = true
  /\ snd_file (sound resumed) = snd_file (sound s)
  /\ snd_volume (sound resumed) = snd_volume (sound s)
  /\ current_track_index resumed = current_track_index s
  /\ ma_calls resumed = ma_calls s ++ [Call_sound_stop; Call_sound_start]
  /\ (snd_started (sound s) = true ->
      resumed = s |> call Call_sound_stop |> call Call_sound_start).
Proof.
  intros Hin Hp Hi paused resumed.
  destruct (in_bounds_passes_guards _ _ Hin) as [He Hg].
  assert (Hpaused : paused = s |> ma_sound_stop |> set_is_playing false).
  { subst paused. unfold HandlePlayPause. now rewrite He, Hg, Hp, Hi. }
  assert (Hresumed : resumed = paused |> ma_sound_start |> set_is_playing true).
  { subst resumed. rewrite Hpaused. unfold HandlePlayPause.
    cbn [track_list current_track_index is_playing sound_initialized
         set_is_playing ma_sound_stop set_sound call].
    rewrite He, Hg, Hi. reflexivity. }
  rewrite Hresumed, Hpaused. unfold status.
  destruct s as [[file started vol cb] ini tl idx pl v fut ld wp sg fl sh calls].
  cbn [sound_initialized is_playing] in Hi, Hp. subst ini pl.
  unfold_updates. rewrite <- app_assoc.
  repeat split. intros ->. reflexivity.
Qed.

Lemma pause_then_play_resumes_in_place_witness :
  index_in_bounds (track_list playing_y) (current_track_index playing_y) = true
  /\ is_playing playing_y = true
  /\ sound_initialized playing_y = true
  /\ ma_calls (HandlePlayPause reject_all (HandlePlayPause reject_all playing_y))
     = ma_calls playing_y ++ [Call_sound_stop; Call_sound_start].
Proof.
  assert (H1 : index_in_bounds (track_list playing_y)
                 (current_track_index playing_y) = true) by reflexivity.
  assert (H2 : is_playing playing_y = true) by reflexivity.
  assert (H3 : sound_initialized playing_y = true) by reflexivity.
  split; [exact H1 | split; [exact H2 | split; [exact H3 |]]].
  pose proof (pause_then_play_resumes_in_place reject_all reject_all playing_y
                H1 H2 H3) as H.
  cbv zeta in H. destruct H as [_ [_ [_ [_ [_ [_ [_ [_ [H _]]]]]]]]].
  exact H.
Defined.

(** X2. On a session that is not playing and holds no sound, or holds one
    that the engine reports as still running, Play releases what is held
    and loads the track at the current index.  If the engine accepts the
    file the session is Playing on it, the sound carrying the session
    volume; if it rejects the file the session is Stopped.  The index does
    not move either way. *)
Theorem play_loads_the_current_track engine (s : PlayerState) :
  index_in_bounds (track_list s) (current_track_index s) = true ->
  is_playing s = false ->
  sound_initialized s = false \/ snd_started (sound s) = true ->
  let path := at_index (track_list s) (current_track_index s) in
  let s' := HandlePlayPause engine s in
  current_track_index s' = current_track_index s
  /\ track_list s' = track_list s
  /\ match engine path with
     | MA_SUCCESS =>
         status s' = Playing
         /\ sound s' = mk_sound path true (volume s) true
         /\ ma_calls s'
            = ma_calls s ++ release_calls s
              ++ [Call_sound_init_from_file path MA_SUCCESS;
                  Call_sound_set_volume (volume s);
                  Call_sound_set_end_callback; Call_sound_start]
     | MA_ERROR =>
         status s' = Stopped
         /\ ma_calls s'
            = ma_calls s ++ release_calls s
              ++ [Call_sound_init_from_file path MA_ERROR]
     end.
Proof.
  intros Hin Hp Hsnd path s'.
  destruct (in_bounds_passes_guards _ _ Hin) as [He Hg].
  assert (Hb : 0 <= current_track_index s < size_as_int (track_list s)).
  { unfold index_in_bounds in Hin. apply andb_true_iff in Hin as [H0 H1].
    apply Z.leb_le in H0. apply Z.ltb_lt in H1. lia. }
  assert (Hload : s' = snd (InitializeAndPlaySound engine
                              (current_track_index s) true s)).
  { subst s'. unfold HandlePlayPause. rewrite He, Hg, Hp.
    replace (sound_initialized s && negb (ma_sound_is_playing s)) with false;
      [reflexivity |].
    unfold ma_sound_is_playing.
    destruct Hsnd as [-> | ->]; [reflexivity | now rewrite andb_false_r]. }
  rewrite Hload. subst path. destruct (engine _) eqn:Heng.
  - rewrite (InitializeAndPlaySound_accepted _ _ _ _ He Hb Heng).
    unfold status. repeat split.
  - rewrite (InitializeAndPlaySound_rejected _ _ _ _ He Hb Heng).
    unfold status. repeat split.
Qed.

Lemma play_loads_the_current_track_witness :
  index_in_bounds (track_list stopped_on_two)
    (current_track_index stopped_on_two) = true
  /\ is_playing stopped_on_two = false
  /\ (sound_initialized stopped_on_two = false
      \/ snd_started (sound stopped_on_two) = true)
  /\ current_track_index (HandlePlayPause accept_all stopped_on_two) = 0.
Proof.
  assert (H1 : index_in_bounds (track_list stopped_on_two)
                 (current_track_index stopped_on_two) = true) by reflexivity.
  assert (H2 : is_playing stopped_on_two = false) by reflexivity.
  assert (H3 : sound_initialized stopped_on_two = false
               \/ snd_started (sound stopped_on_two) = true)
    by (left; reflexivity).
  split; [exact H1 | split; [exact H2 | split; [exact H3 |]]].
  exact (proj1 (play_loads_the_current_track accept_all stopped_on_two H1 H2 H3)).
Defined.

(** X3. When the current index designates no track, in particular on an
    empty catalog, Play/Pause returns the session as it is: no field
    changes and the engine is not called. *)
Theorem play_pause_inert_without_track engine (s : PlayerState) :
  index_in_bounds (track_list s) (current_track_index s) = false ->
  HandlePlayPause engine s = s.
Proof.
  intros Hout. unfold HandlePlayPause.
  destruct (empty (track_list s)); [reflexivity |].
  unfold index_in_bounds in Hout. rewrite Z.geb_leb.
  apply andb_false_iff in Hout as [H | H].
  - apply Z.leb_gt in H.
    replace (current_track_index s <? 0) with true
      by (symmetry; apply Z.ltb_lt; lia).
    reflexivity.
  - apply Z.ltb_ge in H.
    replace (size_as_int (track_list s) <=? current_track_index s) with true
      by (symmetry; apply Z.leb_le; lia).
    now rewrite orb_true_r.
Qed.

Lemma play_pause_inert_without_track_witness :
  index_in_bounds (track_list main_startup) (current_track_index main_startup)
  = false
  /\ HandlePlayPause accept_all main_startup = main_startup.
Proof.
  assert (H : index_in_bounds (track_list main_startup)
                (current_track_index main_startup) = false) by reflexivity.
  split; [exact H |].
  exact (play_pause_inert_without_track accept_all main_startup H).
Defined.

(** ** Volume *)

(** X4. A volume change is stored in the session and leaves the status
    alone.  With a sound bound it is applied to the sound at once, by one
    call; with none bound the engine is not called, and the next load that
    the engine accepts gives the new sound exactly that volume. *)
Theorem volume_is_kept_for_the_next_load (v : Q) engine (i : Z)
    (start : bool) (s : PlayerState) :
  let s1 := HandleVolumeChange v s in
  volume s1 = v
  /\ status s1 = status s
  /\ (sound_initialized s = true ->
      snd_volume (sound s1) = v
      /\ ma_calls s1 = ma_calls s ++ [Call_sound_set_volume v])
  /\ (sound_initialized s = false -> s1 = set_volume v s)
  /\ (empty (track_list s) = false ->
      0 <= i < size_as_int (track_list s) ->
      engine (at_index (track_list s) i) = MA_SUCCESS ->
      snd_volume (sound (snd (InitializeAndPlaySound engine i start s1))) = v).
Proof.
  intros s1.
  assert (Hload : forall t,
             track_list t = track_list s -> volume t = v ->
             empty (track_list s) = false ->
             0 <= i < size_as_int (track_list s) ->
             engine (at_index (track_list s) i) = MA_SUCCESS ->
             snd_volume (sound (snd (InitializeAndPlaySound engine i start t))) = v).
  { intros t Ht Hv He Hb Hok. rewrite <- Ht in He, Hb, Hok.
    rewrite (InitializeAndPlaySound_accepted _ _ _ _ He Hb Hok). exact Hv. }
  subst s1. unfold HandleVolumeChange, status in *.
  cbn [sound_initialized volume set_volume] in *.
  destruct (sound_initialized s) eqn:Hi.
  - split; [reflexivity | split; [| split; [| split]]].
    + cbn [is_playing sound_initialized ma_sound_set_volume set_volume
           set_sound call]. now rewrite Hi.
    + intros _. split; reflexivity.
    + discriminate.
    + apply Hload; reflexivity.
  - split; [reflexivity | split; [| split; [| split]]].
    + cbn [is_playing sound_initialized set_volume]. now rewrite Hi.
    + discriminate.
    + reflexivity.
    + apply Hload; reflexivity.
Qed.

(** ** End of a track, from the engine to the next song *)

(** X11. A sound that reaches its end while the session plays: once the
    engine has signalled it and the loop has drained the flag, the session
    is Playing the track at [(i + 1) mod n], the engine accepting its file.
    The ended sound was released before the new one was loaded, the new
    sound carries the session volume and the end callback, and the flag is
    down again. *)
Theorem end_of_track_plays_the_next engine (s : PlayerState) :
  0 < Z.of_nat (List.length (track_list s)) <= Int.INT_MAX ->
  0 <= current_track_index s < Z.of_nat (List.length (track_list s)) ->
  is_playing s = true ->
  engine (at_index (track_list s)
            ((current_track_index s + 1) mod Z.of_nat (List.length (track_list s))))
  = MA_SUCCESS ->
  let next := (current_track_index s + 1) mod Z.of_nat (List.length (track_list s)) in
  let s' := run [TrackEnd; DrainAudioEvents engine] s in
  status s' = Playing
  /\ current_track_index s' = next
  /\ sound s' = mk_sound (at_index (track_list s) next) true (volume s) true
  /\ track_ended_flag s' = false
  /\ track_list s' = track_list s
  /\ ma_calls s'
     = ma_calls s ++ release_calls s
       ++ [Call_sound_init_from_file (at_index (track_list s) next) MA_SUCCESS;
           Call_sound_set_volume (volume s);
           Call_sound_set_end_callback; Call_sound_start].
Proof.
  intros Hn Hi Hp Hok next s'.
  set (s1 := set_track_ended_flag false (engine_sound_at_end s)).
  assert (Hs' : s' = HandleNextTrack engine s1).
  { subst s' s1. cbn [run apply_event]. unfold ProcessAudioEvents.
    change (track_ended_flag (engine_sound_at_end s)) with true.
    change (is_playing (set_track_ended_flag false (engine_sound_at_end s)))
      with (is_playing s).
    now rewrite Hp. }
  assert (Hnext : next_track_index s1 = next).
  { change (next_track_index s1) with (next_track_index s).
    now apply next_track_index_mod. }
  assert (He : empty (track_list s1) = false)
    by (apply empty_false_length; exact (proj1 Hn)).
  assert (Hb : 0 <= next_track_index s1 < size_as_int (track_list s1))
    by (apply next_track_index_in_bounds; exact Hn).
  rewrite Hs'. unfold HandleNextTrack. rewrite He.
  rewrite Hnext in *.
  rewrite (InitializeAndPlaySound_accepted _ _ _ _ He Hb Hok).
  change (is_playing s1) with (is_playing s). rewrite Hp.
  unfold status. repeat split.
Qed.

Lemma end_of_track_plays_the_next_witness :
  0 < Z.of_nat (List.length (track_list playing_y)) <= Int.INT_MAX
  /\ 0 <= current_track_index playing_y
        < Z.of_nat (List.length (track_list playing_y))
  /\ is_playing playing_y = true
  /\ accept_all
       (at_index (track_list playing_y)
          ((current_track_index playing_y + 1)
           mod Z.of_nat (List.length (track_list playing_y)))) = MA_SUCCESS
  /\ status (run [TrackEnd; DrainAudioEvents accept_all] playing_y) = Playing.
Proof.
  assert (H1 : 0 < Z.of_nat (List.length (track_list playing_y)) <= Int.INT_MAX)
    by (vm_compute; split; [reflexivity | discriminate]).
  assert (H2 : 0 <= current_track_index playing_y
               < Z.of_nat (List.length (track_list playing_y)))
    by (vm_compute; split; [discriminate | reflexivity]).
  assert (H3 : is_playing playing_y = true) by reflexivity.
  assert (H4 : accept_all
                 (at_index (track_list playing_y)
                    ((current_track_index playing_y + 1)
                     mod Z.of_nat (List.length (track_list playing_y))))
               = MA_SUCCESS) by reflexivity.
  split; [exact H1 | split; [exact H2 | split; [exact H3 | split; [exact H4 |]]]].
  exact (proj1 (end_of_track_plays_the_next accept_all playing_y H1 H2 H3 H4)).
Defined.

(** X12. A sound reaches its end and, before the loop drains the flag, the
    user pauses: the drain drops the signal.  The session is Paused on the
    same track with the same sound, the flag is down, and the only call
    made on the engine is the stop of the pause. *)
Theorem pause_before_drain_drops_the_signal engine1 engine2 (s : PlayerState) :
  index_in_bounds (track_list s) (current_track_index s) = true ->
  is_playing s = true ->
  sound_initialized s = true ->
  let s' := run [TrackEnd; TogglePlayPause engine1; DrainAudioEvents engine2] s in
  status s' = Paused
  /\ current_track_index s' = current_track_index s
  /\ snd_file (sound s') = snd_file (sound s)
  /\ track_ended_flag s' = false
  /\ ma_calls s' = ma_calls s ++ [Call_sound_stop].
Proof.
  intros Hin Hp Hi s'.
  destruct (in_bounds_passes_guards _ _ Hin) as [He Hg].
  assert (Hpause : HandlePlayPause engine1 (engine_sound_at_end s)
                   = engine_sound_at_end s |> ma_sound_stop
                       |> set_is_playing false).
  { unfold HandlePlayPause.
    change (track_list (engine_sound_at_end s)) with (track_list s).
    change (current_track_index (engine_sound_at_end s))
      with (current_track_index s).
    change (is_playing (engine_sound_at_end s)) with (is_playing s).
    change (sound_initialized (engine_sound_at_end s))
      with (sound_initialized s).
    now rewrite He, Hg, Hp, Hi. }
  subst s'. cbn [run apply_event]. rewrite Hpause.
  unfold ProcessAudioEvents, status, engine_sound_at_end.
  destruct s as [[file started vol cb] ini tl idx pl v fut ld wp sg fl sh calls].
  cbn [sound_initialized is_playing] in Hi, Hp. subst ini pl.
  unfold_updates. repeat split.
Qed.

Lemma pause_before_drain_drops_the_signal_witness :
  index_in_bounds (track_list playing_y) (current_track_index playing_y) = true
  /\ is_playing playing_y = true
  /\ sound_initialized playing_y = true
  /\ current_track_index
       (run [TrackEnd; TogglePlayPause accept_all; DrainAudioEvents accept_all]
          playing_y) = 1.
Proof.
  assert (H1 : index_in_bounds (track_list playing_y)
                 (current_track_index playing_y) = true) by reflexivity.
  assert (H2 : is_playing playing_y = true) by reflexivity.
  assert (H3 : sound_initialized playing_y = true) by reflexivity.
  split; [exact H1 | split; [exact H2 | split; [exact H3 |]]].
  pose proof (pause_before_drain_drops_the_signal accept_all accept_all
                playing_y H1 H2 H3) as H.
  cbv zeta in H. destruct H as [_ [H _]]. exact H.
Defined.

(** ** A tick with nothing to do *)

Lemma set_track_ended_flag_same s :
  set_track_ended_flag (track_ended_flag s) s = s.
Proof. now destruct s. Qed.

(** X13. A loop iteration in which the scan is not finished (or none is in
    flight), no end of track was signalled and ImGui reports no
    interaction, returns the session exactly as it was, provided its
    current index designates a track of the catalog (or the catalog is
    empty): drawing the window reads the session and writes nothing. *)
Theorem idle_iteration_changes_nothing engine (ui : ui_input)
    (s : PlayerState) :
  no_interaction ui ->
  index_designates_track s ->
  track_ended_flag s = false ->
  main_loop_iteration engine NotReady ui s = s.
Proof.
  intros (Hc & Hr & Hpp & Hnx & Hv) Hidx Hf.
  unfold main_loop_iteration.
  assert (H1 : ProcessAsyncMusicLoadCompletion engine NotReady s = s).
  { unfold ProcessAsyncMusicLoadCompletion. now destruct (_ && _). }
  rewrite H1.
  assert (H2 : ProcessAudioEvents engine s = s).
  { unfold ProcessAudioEvents. rewrite Hf. rewrite <- Hf at 1.
    apply set_track_ended_flag_same. }
  rewrite H2. unfold RenderUI.
  destruct (negb (show_music_player_window s)); [reflexivity |].
  rewrite Hc, Hr, Hpp, Hnx, Hv. cbn [andb].
  destruct (ui_begin ui); [| reflexivity].
  destruct (empty (track_list s)) eqn:He; cbn [negb]; [reflexivity |].
  apply (index_designates_track_nonempty _ He) in Hidx.
  destruct (in_bounds_passes_guards _ _ Hidx) as [_ Hg].
  rewrite Hg, Hidx. reflexivity.
Qed.

Lemma idle_iteration_changes_nothing_witness :
  no_interaction (mk_ui false true false false false None)
  /\ index_designates_track playing_y
  /\ track_ended_flag playing_y = false
  /\ main_loop_iteration reject_all NotReady
       (mk_ui false true false false false None) playing_y
     = playing_y.
Proof.
  assert (H1 : no_interaction (mk_ui false true false false false None))
    by (repeat split).
  assert (H2 : index_designates_track playing_y) by reflexivity.
  assert (H3 : track_ended_flag playing_y = false) by reflexivity.
  split; [exact H1 | split; [exact H2 | split; [exact H3 |]]].
  exact (idle_iteration_changes_nothing reject_all _ playing_y H1 H2 H3).
Defined.

(** * The first [main] *)

(** ** Its scan *)

Lemma monolith_for_each_entry_outcome it : forall found,
  monolith_for_each_entry it found
  = (found ++ map entry_path
                (filter monolith_selected (before_iterator_error it)),
     if forallb (fun step => match step with FsOk _ => true | FsThrow => false end) it
     then FsOk tt else FsThrow).
Proof.
  induction it as [|step it IH]; intros found.
  - simpl. now rewrite app_nil_r.
  - destruct step as [e|]; [| simpl; now rewrite app_nil_r].
    cbn [monolith_for_each_entry before_iterator_error forallb filter andb].
    unfold monolith_visit_entry. unfold Scan.bind, Scan.lift.
    change (String.eqb (entry_extension e) ".mp3"
            || String.eqb (entry_extension e) ".wav")
      with (monolith_selected e).
    destruct (monolith_selected e); unfold Scan.push_back, Scan.ret;
      rewrite IH; cbn [map]; now rewrite <- ?app_assoc.
Qed.

Lemma monolith_scan_closed_form fs :
  monolith_scan fs
  = if exists_throws fs || creation_throws fs then FsThrow
    else FsOk (match fs_directory_iterator fs with
               | FsThrow => []
               | FsOk it =>
                   map entry_path
                     (filter monolith_selected (before_iterator_error it))
               end).
Proof.
  unfold monolith_scan, exists_throws, creation_throws.
  set (scan := Scan.try_catch _ _).
  assert (Hscan : forall found,
    scan found
    = (found ++ match fs_directory_iterator fs with
                | FsThrow => []
                | FsOk it =>
                    map entry_path
                      (filter monolith_selected (before_iterator_error it))
                end, FsOk tt)).
  { intros found. subst scan.
    unfold Scan.try_catch, Scan.bind, Scan.lift, Scan.ret.
    destruct (fs_directory_iterator fs) as [it|]; [| now rewrite app_nil_r].
    rewrite monolith_for_each_entry_outcome.
    destruct (forallb _ it); reflexivity. }
  clearbody scan.
  destruct (fs_exists fs) as [[|]|];
    [| destruct (fs_create_directories fs) as [created|] |];
    cbv [Scan.bind Scan.lift Scan.ret negb orb];
    rewrite ?Hscan; reflexivity.
Qed.

Lemma monolith_selected_playable e :
  transform_tolower (entry_extension e) = entry_extension e ->
  monolith_selected e = playable_extension (entry_extension e).
Proof.
  intros H. unfold monolith_selected, playable_extension. now rewrite H.
Qed.

(** X14. Both scans let a failure of the existence test escape.  The scan
    of the first [main] also lets the failure to create the missing
    directory escape, where the later worker returns an empty list.  When
    neither call throws, the first scan returns, in order, the paths of the
    entries enumerated before the iterator fails whose extension is exactly
    [.mp3] or [.wav], regular files or not.  On a directory whose entries
    are all regular files with extensions already in lower case, enumerated
    without error, the two scans return the same list. *)
Theorem monolith_scan_compared (fs : filesystem) :
  (exists_throws fs = true ->
   monolith_scan fs = FsThrow /\ ScanMusicDirectoryWorker fs = FsThrow)
  /\ (creation_throws fs = true ->
      monolith_scan fs = FsThrow /\ ScanMusicDirectoryWorker fs = FsOk [])
  /\ (exists_throws fs = false -> creation_throws fs = false ->
      fs_directory_iterator fs = FsThrow -> monolith_scan fs = FsOk [])
  /\ (forall it,
        exists_throws fs = false -> creation_throws fs = false ->
        fs_directory_iterator fs = FsOk it ->
        monolith_scan fs
        = FsOk (map entry_path
                  (filter monolith_selected (before_iterator_error it))))
  /\ (forall entries,
        exists_throws fs = false -> creation_throws fs = false ->
        fs_directory_iterator fs = FsOk (map FsOk entries) ->
        (forall e, In e entries ->
           entry_is_regular_file e = FsOk true
           /\ transform_tolower (entry_extension e) = entry_extension e) ->
        monolith_scan fs = ScanMusicDirectoryWorker fs).
Proof.
  rewrite monolith_scan_closed_form, ScanMusicDirectoryWorker_closed_form.
  split; [| split; [| split; [| split]]].
  - intros ->. split; reflexivity.
  - intros Hc. rewrite Hc.
    assert (He : exists_throws fs = false).
    { unfold exists_throws, creation_throws in *.
      destruct (fs_exists fs); [reflexivity | discriminate]. }
    rewrite He. split; reflexivity.
  - intros -> -> ->. reflexivity.
  - intros it -> -> ->. reflexivity.
  - intros entries -> -> -> Hall. cbn [orb]. f_equal.
    rewrite before_first_error_none
      by (intros e He; destruct (Hall e He) as [-> _]; discriminate).
    clear fs. induction entries as [|e entries IH]; [reflexivity |].
    cbn [map before_iterator_error filter].
    destruct (Hall e (or_introl eq_refl)) as [Hreg Hlow].
    assert (Hsel : entry_selected e = monolith_selected e)
      by (unfold entry_selected; rewrite Hreg;
          now rewrite (monolith_selected_playable e Hlow)).
    rewrite Hsel.
    specialize (IH (fun e' He' => Hall e' (or_intror He'))).
    destruct (monolith_selected e); cbn [map]; now rewrite IH.
Qed.

(** Where the two scans differ: an extension in upper case, and a directory
    named like a song. *)
Example monolith_scan_example :
  monolith_scan
    (mk_filesystem (FsOk true) (FsOk false)
       (FsOk [FsOk (mk_entry "./music/A.MP3" ".MP3" (FsOk true));
              FsOk (mk_entry "./music/dir.wav" ".wav" (FsOk false));
              FsOk (mk_entry "./music/b.wav" ".wav" (FsOk true))]))
  = FsOk ["./music/dir.wav"; "./music/b.wav"]
  /\ ScanMusicDirectoryWorker
       (mk_filesystem (FsOk true) (FsOk false)
          (FsOk [FsOk (mk_entry "./music/A.MP3" ".MP3" (FsOk true));
                 FsOk (mk_entry "./music/dir.wav" ".wav" (FsOk false));
                 FsOk (mk_entry "./music/b.wav" ".wav" (FsOk true))]))
     = FsOk ["./music/A.MP3"; "./music/b.wav"].
Proof. split; reflexivity. Qed.

(** ** Its commands *)

(** X15. In the first [main], Next moves the index to [(i + 1) mod n]
    whatever the engine answers, and a file the engine accepts is started
    whatever the status was: the session is Playing on it.  When the file
    is rejected the session is Stopped on the new index, so that the next
    Next goes one track further; [HandleNextTrack] of the later player
    keeps the index in that case. *)
Theorem monolith_next_moves_the_index engine (s : PlayerState) :
  0 < Z.of_nat (List.length (track_list s)) <= Int.INT_MAX ->
  0 <= current_track_index s < Z.of_nat (List.length (track_list s)) ->
  let next := (current_track_index s + 1) mod Z.of_nat (List.length (track_list s)) in
  let path := at_index (track_list s) next in
  let s' := monolith_next engine s in
  current_track_index s' = next
  /\ track_list s' = track_list s
  /\ match engine path with
     | MA_SUCCESS =>
         status s' = Playing
         /\ sound s' = mk_sound path true (volume s) false
         /\ ma_calls s'
            = ma_calls s ++ release_calls s
              ++ [Call_sound_init_from_file path MA_SUCCESS;
                  Call_sound_set_volume (volume s); Call_sound_start]
     | MA_ERROR =>
         status s' = Stopped
         /\ ma_calls s'
            = ma_calls s ++ release_calls s
              ++ [Call_sound_init_from_file path MA_ERROR]
         /\ current_track_index (HandleNextTrack engine s)
            = current_track_index s
     end.
Proof.
  intros Hn Hi next path s'.
  pose proof (next_track_index_mod s Hn Hi) as Hnext. fold next in Hnext.
  assert (Hkeep : engine path = MA_ERROR ->
                  current_track_index (HandleNextTrack engine s)
                  = current_track_index s).
  { intros Hko. unfold HandleNextTrack.
    assert (He : empty (track_list s) = false)
      by (apply empty_false_length; exact (proj1 Hn)).
    rewrite He.
    pose proof (next_track_index_in_bounds s Hn) as Hb.
    subst path. rewrite <- Hnext in Hko.
    now rewrite (InitializeAndPlaySound_rejected _ _ _ _ He Hb Hko). }
  subst s'. unfold monolith_next, monolith_advance_and_init.
  set (s0 := if sound_initialized s then _ else s).
  assert (H0 : track_list s0 = track_list s
               /\ current_track_index s0 = current_track_index s
               /\ volume s0 = volume s
               /\ sound_initialized s0 = false
               /\ ma_calls s0 = ma_calls s ++ release_calls s).
  { subst s0. unfold release_calls.
    destruct (sound_initialized s) eqn:E; cbn; rewrite ?app_nil_r; auto. }
  assert (Hnext0 : next_track_index s0 = next).
  { unfold next_track_index.
    destruct H0 as (-> & -> & _). exact Hnext. }
  rewrite Hnext0. unfold ma_sound_init_from_file.
  cbn [track_list current_track_index set_current_track_index].
  destruct H0 as (Htl & _ & Hv & Hini & Hcalls).
  rewrite Htl. fold path. clearbody s0.
  destruct s0 as [snd0 ini0 tl0 idx0 pl0 v0 fut0 ld0 wp0 sg0 fl0 sh0 calls0].
  cbn [track_list volume sound_initialized ma_calls] in Htl, Hv, Hini, Hcalls.
  subst tl0 v0 ini0 calls0.
  destruct (engine path) eqn:Heng; unfold status; unfold_updates;
    rewrite <- ?app_assoc; repeat split; auto.
Qed.

Lemma monolith_next_moves_the_index_witness :
  0 < Z.of_nat (List.length (track_list stopped_on_two)) <= Int.INT_MAX
  /\ 0 <= current_track_index stopped_on_two
        < Z.of_nat (List.length (track_list stopped_on_two))
  /\ current_track_index (monolith_next reject_all stopped_on_two) = 1.
Proof.
  assert (H1 : 0 < Z.of_nat (List.length (track_list stopped_on_two))
               <= Int.INT_MAX)
    by (vm_compute; split; [reflexivity | discriminate]).
  assert (H2 : 0 <= current_track_index stopped_on_two
               < Z.of_nat (List.length (track_list stopped_on_two)))
    by (vm_compute; split; [discriminate | reflexivity]).
  split; [exact H1 | split; [exact H2 |]].
  exact (proj1 (monolith_next_moves_the_index reject_all stopped_on_two H1 H2)).
Defined.

(** ** Its invariants *)

Arguments next_track_index : simpl never.

(** The two facts kept by every step of the first [main]: split on the
    flags of the session and on the engine's answer, and run the trace. *)
Ltac monolith_step :=
  let Hp := fresh "Hp" in
  let Hs := fresh "Hs" in
  intros [Hp Hs];
  unfold protocol_respected, playing_has_sound in *;
  match goal with
  | s : PlayerState |- _ =>
      destruct s as [[file [|] vol cb] [|] tl idx [|] v fut ld wp sg fl sh calls]
  end;
  cbn [ma_calls sound_initialized is_playing] in Hp, Hs;
  try (specialize (Hs eq_refl); discriminate);
  simpl;
  repeat match goal with
         | |- context [match ?e ?p with MA_SUCCESS => _ | MA_ERROR => _ end] =>
             destruct (e p); simpl
         | |- context [if ?b then _ else _] => destruct b; simpl
         end;
  rewrite ?engine_protocol_app, ?Hp; cbn [engine_protocol];
  split; try reflexivity; try discriminate; auto.

Lemma monolith_play_pause_discipline engine s :
  protocol_respected s /\ playing_has_sound s ->
  protocol_respected (monolith_play_pause engine s)
  /\ playing_has_sound (monolith_play_pause engine s).
Proof.
  unfold monolith_play_pause, ma_sound_init_from_file, ma_sound_is_playing.
  monolith_step.
Qed.

Lemma monolith_next_discipline engine s :
  protocol_respected s /\ playing_has_sound s ->
  protocol_respected (monolith_next engine s)
  /\ playing_has_sound (monolith_next engine s).
Proof.
  unfold monolith_next, monolith_advance_and_init, ma_sound_init_from_file.
  monolith_step.
Qed.

Lemma monolith_volume_discipline new_volume s :
  protocol_respected s /\ playing_has_sound s ->
  protocol_respected (monolith_volume new_volume s)
  /\ playing_has_sound (monolith_volume new_volume s).
Proof. unfold monolith_volume. monolith_step. Qed.

Lemma monolith_auto_next_discipline engine at_end s :
  protocol_respected s /\ playing_has_sound s ->
  protocol_respected (monolith_auto_next engine at_end s)
  /\ playing_has_sound (monolith_auto_next engine at_end s).
Proof.
  unfold monolith_auto_next, monolith_advance_and_init,
    ma_sound_init_from_file.
  monolith_step.
Qed.

Lemma monolith_frame_discipline engine ui at_end s :
  protocol_respected s /\ playing_has_sound s ->
  protocol_respected (monolith_frame engine ui at_end s)
  /\ playing_has_sound (monolith_frame engine ui at_end s).
Proof.
  intros H. unfold monolith_frame.
  apply monolith_auto_next_discipline.
  destruct (negb (empty (track_list s))); [| exact H].
  set (s1 := if _ || _ then _ else s).
  assert (H1 : protocol_respected s1 /\ playing_has_sound s1)
    by (subst s1; destruct (_ || _); exact H).
  clearbody s1.
  set (s2 := if ui_play_pause ui then _ else s1).
  assert (H2 : protocol_respected s2 /\ playing_has_sound s2)
    by (subst s2; destruct (ui_play_pause ui);
        [now apply monolith_play_pause_discipline | exact H1]).
  clearbody s2.
  set (s3 := if ui_next ui then _ else s2).
  assert (H3 : protocol_respected s3 /\ playing_has_sound s3)
    by (subst s3; destruct (ui_next ui);
        [now apply monolith_next_discipline | exact H2]).
  clearbody s3.
  destruct (ui_volume ui); [now apply monolith_volume_discipline | exact H3].
Qed.

(** X16. The first [main] too keeps to the engine's discipline and never
    shows "Pause" without a sound: after any number of loop iterations,
    whatever the buttons pressed, the engine's answers and the scan result
    it started from, its calls use or release a sound only while it is
    initialised, never initialise over a live one, [sound_initialized]
    tells whether one is live, and [is_playing] implies it. *)
Theorem monolith_keeps_discipline
    (frames : list ((string -> ma_result) * ui_input * bool))
    (tracks : list string) :
  let s := monolith_run frames (monolith_startup tracks) in
  engine_protocol false (ma_calls s) = Some (sound_initialized s)
  /\ (is_playing s = true -> sound_initialized s = true).
Proof.
  intros s. subst s.
  assert (H0 : protocol_respected (monolith_startup tracks)
               /\ playing_has_sound (monolith_startup tracks))
    by (split; [reflexivity | discriminate]).
  revert H0. generalize (monolith_startup tracks).
  induction frames as [|[[engine ui] at_end] frames IH]; intros s H;
    [exact H |].
  cbn [monolith_run]. apply IH. now apply monolith_frame_discipline.
Qed.

Ltac monolith_moves_cases :=
  unfold monolith_moves;
  match goal with
  | s : PlayerState |- _ =>
      destruct s as [[file [|] vol cb] [|] tl idx [|] v fut ld wp sg fl sh calls]
  end;
  simpl;
  repeat match goal with
         | |- context [match ?e ?p with MA_SUCCESS => _ | MA_ERROR => _ end] =>
             destruct (e p); simpl
         | |- context [if ?b then _ else _] => destruct b; simpl
         end;
  unfold next_track_index; simpl; auto.

Lemma monolith_play_pause_moves engine s :
  monolith_moves s (monolith_play_pause engine s).
Proof.
  unfold monolith_play_pause, ma_sound_init_from_file, ma_sound_is_playing.
  monolith_moves_cases.
Qed.

Lemma monolith_next_moves engine s :
  monolith_moves s (monolith_next engine s).
Proof.
  unfold monolith_next, monolith_advance_and_init, ma_sound_init_from_file.
  monolith_moves_cases.
Qed.

Lemma monolith_volume_moves new_volume s :
  monolith_moves s (monolith_volume new_volume s).
Proof. unfold monolith_volume. monolith_moves_cases. Qed.

Lemma monolith_auto_next_moves engine at_end s :
  monolith_moves s (monolith_auto_next engine at_end s).
Proof.
  unfold monolith_auto_next, monolith_advance_and_init,
    ma_sound_init_from_file.
  monolith_moves_cases.
Qed.

Lemma monolith_moves_in_catalog tracks s s' :
  0 < Z.of_nat (List.length tracks) <= Int.INT_MAX ->
  monolith_moves s s' ->
  track_list s = tracks
  /\ 0 <= current_track_index s < Z.of_nat (List.length tracks) ->
  track_list s' = tracks
  /\ 0 <= current_track_index s' < Z.of_nat (List.length tracks).
Proof.
  intros Hn [Hl Hc] [Ht Hb]. split; [congruence |].
  destruct Hc as [-> | ->]; [exact Hb |].
  rewrite <- Ht in *.
  pose proof (next_track_index_in_bounds s Hn) as Hnext.
  rewrite size_as_int_fits in Hnext by lia. exact Hnext.
Qed.

Lemma monolith_frame_in_catalog tracks engine ui at_end s :
  0 < Z.of_nat (List.length tracks) <= Int.INT_MAX ->
  track_list s = tracks
  /\ 0 <= current_track_index s < Z.of_nat (List.length tracks) ->
  track_list (monolith_frame engine ui at_end s) = tracks
  /\ 0 <= current_track_index (monolith_frame engine ui at_end s)
        < Z.of_nat (List.length tracks).
Proof.
  intros Hn H. unfold monolith_frame.
  apply (monolith_moves_in_catalog tracks _ _ Hn
           (monolith_auto_next_moves engine at_end _)).
  destruct (negb (empty (track_list s))); [| exact H].
  set (s1 := if _ || _ then _ else s).
  assert (H1 : track_list s1 = tracks
               /\ 0 <= current_track_index s1 < Z.of_nat (List.length tracks)).
  { subst s1. destruct (_ || _); [| exact H].
    split; [exact (proj1 H) | cbn; lia]. }
  clearbody s1.
  set (s2 := if ui_play_pause ui then _ else s1).
  assert (H2 : track_list s2 = tracks
               /\ 0 <= current_track_index s2 < Z.of_nat (List.length tracks)).
  { subst s2. destruct (ui_play_pause ui); [| exact H1].
    exact (monolith_moves_in_catalog tracks _ _ Hn
             (monolith_play_pause_moves engine s1) H1). }
  clearbody s2.
  set (s3 := if ui_next ui then _ else s2).
  assert (H3 : track_list s3 = tracks
               /\ 0 <= current_track_index s3 < Z.of_nat (List.length tracks)).
  { subst s3. destruct (ui_next ui); [| exact H2].
    exact (monolith_moves_in_catalog tracks _ _ Hn
             (monolith_next_moves engine s2) H2). }
  clearbody s3.
  destruct (ui_volume ui) as [new_volume|]; [| exact H3].
  exact (monolith_moves_in_catalog tracks _ _ Hn
           (monolith_volume_moves new_volume s3) H3).
Qed.

(** X17. In the first [main] the catalog is the one found at start-up, for
    good, and with a non-empty catalog whose length is an [int] value the
    index stays inside it through any number of loop iterations. *)
Theorem monolith_index_stays_in_catalog
    (frames : list ((string -> ma_result) * ui_input * bool))
    (tracks : list string) :
  0 < Z.of_nat (List.length tracks) <= Int.INT_MAX ->
  let s := monolith_run frames (monolith_startup tracks) in
  track_list s = tracks
  /\ 0 <= current_track_index s < Z.of_nat (List.length tracks).
Proof.
  intros Hn s. subst s.
  assert (H0 : track_list (monolith_startup tracks) = tracks
               /\ 0 <= current_track_index (monolith_startup tracks)
                  < Z.of_nat (List.length tracks))
    by (split; [reflexivity | cbn; lia]).
  revert H0. generalize (monolith_startup tracks).
  induction frames as [|[[engine ui] at_end] frames IH]; intros s H;
    [exact H |].
  cbn [monolith_run]. apply IH. now apply monolith_frame_in_catalog.
Qed.

Lemma monolith_index_stays_in_catalog_witness :
  0 < Z.of_nat (List.length three_tracks) <= Int.INT_MAX
  /\ track_list
       (monolith_run
          [(accept_all, mk_ui false true false false true None, false);
           (reject_all, mk_ui false true false false true None, false);
           (accept_all, mk_ui false true false true false None, true)]
          (monolith_startup three_tracks)) = three_tracks.
Proof.
  assert (H : 0 < Z.of_nat (List.length three_tracks) <= Int.INT_MAX)
    by (vm_compute; split; [reflexivity | discriminate]).
  split; [exact H |].
  exact (proj1 (monolith_index_stays_in_catalog
                  [(accept_all, mk_ui false true false false true None, false);
                   (reject_all, mk_ui false true false false true None, false);
                   (accept_all, mk_ui false true false true false None, true)]
                  three_tracks H)).
Defined.

(** * More on the later player *)

(** ** The bound sound follows the session *)

Lemma InitializeAndPlaySound_follows engine i start s :
  sound_follows_session (snd (InitializeAndPlaySound engine i start s)).
Proof.
  unfold sound_follows_session.
  destruct (InitializeAndPlaySound_cases engine i s)
    as [Hg | [[He [Hi Hok]] | [He [Hi Hko]]]].
  - rewrite (InitializeAndPlaySound_invalid _ _ _ _ Hg). discriminate.
  - rewrite (InitializeAndPlaySound_accepted _ _ _ _ He Hi Hok). now split.
  - rewrite (InitializeAndPlaySound_rejected _ _ _ _ He Hi Hko). discriminate.
Qed.

Lemma HandlePlayPause_follows engine s :
  sound_follows_session s -> sound_follows_session (HandlePlayPause engine s).
Proof.
  intros H. unfold HandlePlayPause.
  destruct (empty (track_list s)); auto.
  destruct (_ || _); auto.
  destruct (is_playing s).
  - unfold sound_follows_session in *.
    destruct (sound_initialized s) eqn:Hi; [| cbn; congruence].
    cbn. intros _. now apply H.
  - destruct (sound_initialized s && negb (ma_sound_is_playing s));
      [| apply InitializeAndPlaySound_follows].
    unfold sound_follows_session in *. cbn. exact H.
Qed.

Lemma ProcessAsyncMusicLoadCompletion_follows engine poll s :
  sound_follows_session s ->
  sound_follows_session (ProcessAsyncMusicLoadCompletion engine poll s).
Proof.
  intros H. unfold ProcessAsyncMusicLoadCompletion.
  destruct (is_loading_music s && music_load_future s); auto.
  destruct poll as [|result]; auto.
  match goal with
  | |- sound_follows_session
         (set_is_loading_music _ (set_playing_song_before_async_load _
            (set_was_playing_before_async_load _ ?x))) =>
      assert (Hx : sound_follows_session x); [| exact Hx]
  end.
  match goal with
  | |- sound_follows_session (if ?b then _ else _) => destruct b
  end;
  [match goal with
   | |- sound_follows_session (match ?o with Some _ => _ | None => _ end) =>
       destruct o
   end |];
  try apply InitializeAndPlaySound_follows; destruct result; exact H.
Qed.

Lemma apply_event_follows e s :
  sound_follows_session s -> sound_follows_session (apply_event e s).
Proof.
  apply (apply_event_preserves sound_follows_session (fun _ => true)); auto.
  - intros t Ht. destruct (is_loading_music t) eqn:Hl.
    + unfold TriggerLoadMusicFilesAsync. now rewrite Hl.
    + rewrite (TriggerLoadMusicFilesAsync_refresh t Hl).
      intros Hx. cbn in Hx. discriminate.
  - intros t Ht _ _. unfold sound_follows_session.
    rewrite UninitializeCurrentSound_unbound. discriminate.
  - intros engine t. apply HandlePlayPause_follows.
  - intros engine t Ht. unfold HandleNextTrack.
    destruct (empty (track_list t)); [exact Ht |].
    apply InitializeAndPlaySound_follows.
  - intros v t Ht. unfold HandleVolumeChange, sound_follows_session in *.
    cbn [sound_initialized set_volume volume].
    destruct (sound_initialized t) eqn:Hi;
      [| intros Hx; cbn in Hx; congruence].
    cbn. intros _. split; [reflexivity | now apply Ht].
  - intros engine poll t _. apply ProcessAsyncMusicLoadCompletion_follows.
Qed.

(** X18. Through any sequence of operations from start-up, a sound that is
    bound has the volume of the session, also after the slider has moved
    while it played or before it was loaded, and has the end-of-track
    callback registered. *)
Theorem bound_sound_follows_session (es : list event) :
  let s := run es main_startup in
  bound s ->
  snd_volume (sound s) = volume s /\ snd_end_callback (sound s) = true.
Proof.
  intros s. subst s.
  assert (H0 : sound_follows_session main_startup)
    by (intros Hx; cbn in Hx; discriminate).
  revert H0. generalize main_startup.
  induction es as [|e es IH]; intros s H; [exact H |].
  cbn [run]. apply IH. now apply apply_event_follows.
Qed.

Lemma bound_sound_follows_session_witness :
  bound (run [PollCompletion accept_all (Ready (FsOk two_tracks));
              VolumeChange (1 # 2); TogglePlayPause accept_all;
              VolumeChange (1 # 4)] main_startup)
  /\ snd_volume
       (sound (run [PollCompletion accept_all (Ready (FsOk two_tracks));
                    VolumeChange (1 # 2); TogglePlayPause accept_all;
                    VolumeChange (1 # 4)] main_startup))
     = volume (run [PollCompletion accept_all (Ready (FsOk two_tracks));
                    VolumeChange (1 # 2); TogglePlayPause accept_all;
                    VolumeChange (1 # 4)] main_startup).
Proof.
  assert (H : bound (run [PollCompletion accept_all (Ready (FsOk two_tracks));
                          VolumeChange (1 # 2); TogglePlayPause accept_all;
                          VolumeChange (1 # 4)] main_startup))
    by (vm_compute; reflexivity).
  split; [exact H |].
  exact (proj1 (bound_sound_follows_session
                  [PollCompletion accept_all (Ready (FsOk two_tracks));
                   VolumeChange (1 # 2); TogglePlayPause accept_all;
                   VolumeChange (1 # 4)] H)).
Defined.

(** ** What the worker never lists *)

Lemma before_first_error_enumerated it e :
  In e (before_first_error it) -> In (FsOk e) it.
Proof.
  induction it as [|[e'|] it IH]; simpl; try contradiction.
  destruct (entry_is_regular_file e'); [| contradiction].
  intros [-> | H]; [now left | right; now apply IH].
Qed.

Lemma before_first_error_shorter it :
  exists rest, before_iterator_error it = before_first_error it ++ rest.
Proof.
  induction it as [|[e|] it [rest IH]]; simpl.
  - now exists [].
  - destruct (entry_is_regular_file e).
    + exists rest. simpl. now rewrite IH.
    + now exists (e :: before_iterator_error it).
  - now exists [].
Qed.

Lemma NoDup_map_filter {A B} (f : A -> B) (p : A -> bool) l :
  NoDup (map f l) -> NoDup (map f (filter p l)).
Proof.
  induction l as [|a l IH]; simpl; intros H; [constructor |].
  inversion H as [|x xs Hnotin Hnodup]; subst.
  destruct (p a); [| now apply IH].
  simpl. constructor; [| now apply IH].
  intros Hin. apply Hnotin. apply in_map_iff in Hin as [b [Hb Hin]].
  apply filter_In in Hin as [Hin _]. apply in_map_iff. now exists b.
Qed.

(** X19. The worker lists only what the directory iterator gave it: every
    path it returns is the path of an enumerated entry that is a regular
    file with a playable extension; it returns no more paths than there
    were steps of the iterator; and when the iterator gave no path twice,
    no track is listed twice. *)
Theorem scan_lists_only_enumerated_files (fs : filesystem)
    (it : list (fs_result directory_entry)) (found : list string) :
  fs_directory_iterator fs = FsOk it ->
  ScanMusicDirectoryWorker fs = FsOk found ->
  (forall p, In p found ->
     exists e, In (FsOk e) it /\ entry_path e = p
               /\ entry_is_regular_file e = FsOk true
               /\ playable_extension (entry_extension e) = true)
  /\ (List.length found <= List.length it)%nat
  /\ (NoDup (map entry_path (before_iterator_error it)) -> NoDup found).
Proof.
  intros Hit Hscan. rewrite ScanMusicDirectoryWorker_closed_form, Hit in Hscan.
  assert (Hfound : found = []
                   \/ found = map entry_path
                                (filter entry_selected (before_first_error it))).
  { destruct (exists_throws fs); [discriminate |].
    destruct (creation_throws fs); injection Hscan as <-; auto. }
  clear Hscan.
  destruct Hfound as [-> | ->];
    [split; [intros p [] | split; [cbn; lia | constructor]] |].
  split; [| split].
  - intros p Hp. apply in_map_iff in Hp as [e [Hpath He]].
    apply filter_In in He as [Hin Hsel]. exists e.
    split; [now apply before_first_error_enumerated |].
    split; [exact Hpath |].
    unfold entry_selected in Hsel.
    destruct (entry_is_regular_file e) as [[|]|]; try discriminate. auto.
  - rewrite length_map.
    etransitivity; [apply filter_length_le |].
    destruct (before_first_error_prefix it) as [rest Hrest].
    rewrite <- Hrest at 2. rewrite length_app, length_map. lia.
  - intros Hnodup. apply NoDup_map_filter.
    destruct (before_first_error_shorter it) as [rest Hrest].
    rewrite Hrest, map_app in Hnodup.
    now apply NoDup_app_remove_r in Hnodup.
Qed.

Lemma scan_lists_only_enumerated_files_witness :
  fs_directory_iterator
    (mk_filesystem (FsOk true) (FsOk false)
       (FsOk [FsOk (mk_entry "./music/A.MP3" ".MP3" (FsOk true));
              FsOk (mk_entry "./music/dir.wav" ".wav" (FsOk false));
              FsThrow]))
  = FsOk [FsOk (mk_entry "./music/A.MP3" ".MP3" (FsOk true));
          FsOk (mk_entry "./music/dir.wav" ".wav" (FsOk false));
          FsThrow]
  /\ ScanMusicDirectoryWorker
       (mk_filesystem (FsOk true) (FsOk false)
          (FsOk [FsOk (mk_entry "./music/A.MP3" ".MP3" (FsOk true));
                 FsOk (mk_entry "./music/dir.wav" ".wav" (FsOk false));
                 FsThrow]))
     = FsOk ["./music/A.MP3"]
  /\ (List.length ["./music/A.MP3"] <= 3)%nat.
Proof.
  split; [reflexivity | split; [reflexivity |]].
  exact (proj1 (proj2 (scan_lists_only_enumerated_files
                         (mk_filesystem (FsOk true) (FsOk false)
                            (FsOk [FsOk (mk_entry "./music/A.MP3" ".MP3" (FsOk true));
                                   FsOk (mk_entry "./music/dir.wav" ".wav" (FsOk false));
                                   FsThrow]))
                         _ ["./music/A.MP3"] eq_refl eq_refl))).
Defined.

(** ** Playing needs a sound *)

(** X21. Through any sequence of operations from start-up, a session whose
    [is_playing] flag is up holds an initialised sound: the button never
    reads "Pause" with nothing loaded. *)
Theorem playing_implies_sound_bound (es : list event) :
  is_playing (run es main_startup) = true ->
  sound_initialized (run es main_startup) = true.
Proof.
  exact (run_playing_has_sound es main_startup main_startup_playing_has_sound).
Qed.

Lemma playing_implies_sound_bound_witness :
  is_playing
    (run [PollCompletion accept_all (Ready (FsOk three_tracks));
          Next accept_all; TogglePlayPause accept_all] main_startup) = true
  /\ sound_initialized
       (run [PollCompletion accept_all (Ready (FsOk three_tracks));
             Next accept_all; TogglePlayPause accept_all] main_startup) = true.
Proof.
  assert (H : is_playing
                (run [PollCompletion accept_all (Ready (FsOk three_tracks));
                      Next accept_all; TogglePlayPause accept_all]
                   main_startup) = true)
    by (vm_compute; reflexivity).
  split; [exact H |].
  exact (playing_implies_sound_bound _ H).
Defined.

(** A refresh asked from the empty catalog that [main] starts with, as the
    window invites to: nothing is captured, and whatever the scan finds the
    session is Stopped on index 0. *)
Example refresh_from_an_empty_catalog :
  let s := run [PollCompletion accept_all (Ready (FsOk []))] main_startup in
  let s' := ProcessAsyncMusicLoadCompletion accept_all (Ready (FsOk three_tracks))
              (TriggerLoadMusicFilesAsync false s) in
  track_list s = []
  /\ playing_song_before_async_load (TriggerLoadMusicFilesAsync false s)
     = EmptyString
  /\ track_list s' = three_tracks
  /\ current_track_index s' = 0
  /\ status s' = Stopped.
Proof.
  cbv zeta.
  repeat match goal with |- _ /\ _ => split end; vm_compute; reflexivity.
Qed.
